(** * Hazard-mitigation scoring: dataset preparation and the fallback resolver

    A shallow embedding of [src/app/hazard_mitigation_draft2.py]:
    [initialize_dataset] (date coercion, deduplication, population cleaning,
    log scores, county and state aggregates, the three indexes) and
    [get_best_score_with_meta] (the town / county / state / global chain),
    and of the code around it: [get_zip_coverage_score] of the same file,
    [DebtRevenueAnalyzer] of [src/app/debt_to_revenue.py],
    [get_state_from_zip] and [normalize_state_name] of
    [src/app/EAL_finder.py], and [calculate_rci] of
    [src/app/rci_aggregate.py].  The postal lookups of pgeocode are
    functions from a ZIP code to the fields of a place; the bridge metric
    and the expected-loss score enter [calculate_rci] as functions of the
    county and the state.

    Conventions of the model.
    - A pandas frame is the list of its rows, in row order.  An index built by
      [set_index] is the list of (key, row) pairs: keys may repeat and the
      order of the rows matters to [.iloc[0]].
    - The text columns hold text or nothing: a missing cell (pandas NaN) is
      [None].  Text is ASCII; [upper] and [lower] leave other bytes alone.
    - A date cell and a population cell are given with the outcome of their
      parsing: an instant or a whole number, text that does not parse, or
      nothing.  Of the four date columns only [planApprovalDate] is read
      after its conversion, and only it is kept.
    - float64 values are rationals with an explicit not-a-number element;
      arithmetic is exact.  [np.log1p] is an arbitrary function [log1p] on
      the cleaned populations: nothing below depends on its values.
    - The sorts are stable, as the lexicographic sort behind [sort_index]
      is, and a group keeps its rows in frame order.  For [sort_values] the
      order of rows with equal dates is left to NumPy; the statements on
      deduplication that could depend on it are also given for every
      order.
    - A Python exception is the [Raise] result.
    - A Python dict is the list of its items in insertion order, one item
      per key. *)

From Stdlib Require Import List Bool Arith ZArith QArith Qround Lia Lqa.
From Stdlib Require Import Ascii String Sorting.Sorted Sorting.Permutation.
Import ListNotations.

Set Implicit Arguments.

(* ================================================================== *)
(** ** Text: [str.strip], [str.upper], [str.lower] on ASCII text *)

Module Text.

Local Open Scope N_scope.

(** [str.isspace] on the ASCII range: TAB..CR, FS..US and the blank. *)
Definition isspace (c : ascii) : bool :=
  let n := N_of_ascii c in
  ((9 <=? n) && (n <=? 13)) || ((28 <=? n) && (n <=? 32)).

Definition upper_char (c : ascii) : ascii :=
  let n := N_of_ascii c in
  if (97 <=? n) && (n <=? 122) then ascii_of_N (n - 32) else c.

Definition lower_char (c : ascii) : ascii :=
  let n := N_of_ascii c in
  if (65 <=? n) && (n <=? 90) then ascii_of_N (n + 32) else c.

Fixpoint map_string (f : ascii -> ascii) (s : string) : string :=
  match s with
  | EmptyString => EmptyString
  | String c s' => String (f c) (map_string f s')
  end.

Definition upper : string -> string := map_string upper_char.
Definition lower : string -> string := map_string lower_char.

Fixpoint lstrip (s : string) : string :=
  match s with
  | EmptyString => EmptyString
  | String c s' => if isspace c then lstrip s' else s
  end.

Fixpoint rstrip (s : string) : string :=
  match s with
  | EmptyString => EmptyString
  | String c s' =>
      match rstrip s' with
      | EmptyString => if isspace c then EmptyString else String c EmptyString
      | r => String c r
      end
  end.

Definition strip (s : string) : string := rstrip (lstrip s).

End Text.

(** [_norm(s)]: a missing value ([None] or NaN) is the empty text, any other
    value is stripped. *)
Definition _norm (s : option string) : string :=
  match s with
  | None => EmptyString
  | Some v => Text.strip v
  end.

(* ================================================================== *)
(** ** Numbers: float64 as exact rationals plus NaN *)

Inductive flt : Type :=
| NaN : flt
| Fin : Q -> flt.

Definition flt_lift2 (op : Q -> Q -> Q) (a b : flt) : flt :=
  match a, b with
  | Fin x, Fin y => Fin (op x y)
  | _, _ => NaN
  end.

Definition fadd : flt -> flt -> flt := flt_lift2 Qplus.
Definition fsub : flt -> flt -> flt := flt_lift2 Qminus.
Definition fmul : flt -> flt -> flt := flt_lift2 Qmult.

(** Division.  Every quotient of the program is taken on the branch where
    [log_max == log_min] is false or after [np.average] has checked the sum of
    the weights, so a finite value is never divided by zero; that case is
    mapped to [NaN]. *)
Definition fdiv (a b : flt) : flt :=
  match a, b with
  | Fin x, Fin y => if Qeq_bool y 0 then NaN else Fin (x / y)
  | _, _ => NaN
  end.

(** [a == b] on floats: false as soon as one side is NaN. *)
Definition feqb (a b : flt) : bool :=
  match a, b with
  | Fin x, Fin y => Qeq_bool x y
  | _, _ => false
  end.

(** Round half to even, to the nearest integer. *)
Definition rint (x : Q) : Z :=
  let f := Qfloor x in
  match Qcompare (x - inject_Z f) (1 # 2) with
  | Lt => f
  | Gt => (f + 1)%Z
  | Eq => if Z.even f then f else (f + 1)%Z
  end.

(** [round(x, 2)] and [Series.round(2)]. *)
Definition round2 (x : Q) : Q := Qred (inject_Z (rint (x * 100)) / 100).

Definition fround2 (a : flt) : flt :=
  match a with
  | NaN => NaN
  | Fin x => Fin (round2 x)
  end.


(** The value of a float lies in the closed interval [lo, hi]. *)
Definition flt_in (lo hi : Q) (a : flt) : Prop :=
  match a with
  | NaN => False
  | Fin x => lo <= x /\ x <= hi
  end.

(* ================================================================== *)
(** ** Exceptions *)

Inductive exn : Type :=
| KeyError
| IndexError
| ZeroDivisionError.

Inductive result (A : Type) : Type :=
| Ok : A -> result A
| Raise : exn -> result A.

Arguments Ok {A} _.
Arguments Raise {A} _.

Definition bind {A B : Type} (m : result A) (k : A -> result B) : result B :=
  match m with
  | Ok a => k a
  | Raise e => Raise e
  end.

Notation "x <- m ;; k" := (bind m (fun x => k))
  (at level 61, m at next level, right associativity).

Fixpoint mapM {A B : Type} (f : A -> result B) (l : list A) : result (list B) :=
  match l with
  | [] => Ok []
  | a :: l' => b <- f a ;; bs <- mapM f l' ;; Ok (b :: bs)
  end.

(* ================================================================== *)
(** ** Stable sorting, as used by [sort_values], [sort_index] and [groupby] *)

Section StableSort.

Variable A : Type.
(** [leb x y]: [x] may stand before [y]. *)
Variable leb : A -> A -> bool.

Fixpoint insert_by (x : A) (l : list A) : list A :=
  match l with
  | [] => [x]
  | y :: l' => if leb x y then x :: l else y :: insert_by x l'
  end.

Fixpoint sort_by (l : list A) : list A :=
  match l with
  | [] => []
  | x :: l' => insert_by x (sort_by l')
  end.

End StableSort.

(* ================================================================== *)
(** ** The frame: rows of the plan table *)

(** One row of the table.  [D] is the type of the approval-date column and
    [P] the type of the population column; both change as the frame goes
    through [initialize_dataset]. *)
Record row (D P : Type) : Type := mkRow {
  stateAbbreviation : option string;
  countyName : option string;
  placeName : option string;
  population : P;
  planApprovalDate : D
}.

(** A date cell as read from the file. *)
Inductive date_cell : Type :=
| DateAbsent                      (* empty cell *)
| DateUnparsable (s : string)     (* text that is not a date *)
| DateParsed (t : Z).             (* text read as the instant [t] *)

(** A population cell as read from the file. *)
Inductive num_cell : Type :=
| NumAbsent                       (* empty cell *)
| NumText (s : string)            (* text that is not a number *)
| NumValue (n : Z).

(** Rows as read, rows with the date column converted, and rows of [latest]
    once the population is cleaned. *)
Definition csv_row : Type := row date_cell num_cell.
Definition dated_row : Type := row (option Z) num_cell.
Definition plan_row : Type := row (option Z) Z.

(** [pd.to_datetime(..., errors="coerce")]: NaT is [None]. *)
Definition to_datetime (c : date_cell) : option Z :=
  match c with
  | DateParsed t => Some t
  | DateUnparsable _ => None
  | DateAbsent => None
  end.

(** [pd.to_numeric(..., errors="coerce")]: NaN is [None]. *)
Definition to_numeric (c : num_cell) : option Z :=
  match c with
  | NumValue n => Some n
  | NumText _ => None
  | NumAbsent => None
  end.

Definition fillna (d : Z) (v : option Z) : Z :=
  match v with
  | Some n => n
  | None => d
  end.

Definition convert_date (r : csv_row) : dated_row :=
  mkRow (stateAbbreviation r) (countyName r) (placeName r)
        (population r) (to_datetime (planApprovalDate r)).

(** [a] may stand before [b] in descending date order, NaT last. *)
Definition date_geb (a b : option Z) : bool :=
  match a, b with
  | _, None => true
  | None, Some _ => false
  | Some x, Some y => (y <=? x)%Z
  end.

(** [df.sort_values(by="planApprovalDate", ascending=False)].  Rows with
    equal dates keep their order. *)
Definition sort_values (P : Type) (df : list (row (option Z) P))
  : list (row (option Z) P) :=
  sort_by (fun r1 r2 => date_geb (planApprovalDate r1) (planApprovalDate r2)) df.

(** The [subset] of [drop_duplicates]; two NaN cells count as equal. *)
Definition place_key : Type := (option string * option string)%type.

Definition subset_key (D P : Type) (r : row D P) : place_key :=
  (stateAbbreviation r, placeName r).

Definition place_key_eq_dec (a b : place_key) : {a = b} + {a <> b}.
Proof. repeat decide equality. Defined.

Fixpoint drop_duplicates_seen (D P : Type) (seen : list place_key)
  (df : list (row D P)) : list (row D P) :=
  match df with
  | [] => []
  | r :: df' =>
      if in_dec place_key_eq_dec (subset_key r) seen
      then drop_duplicates_seen seen df'
      else r :: drop_duplicates_seen (subset_key r :: seen) df'
  end.

(** [drop_duplicates(subset=["stateAbbreviation", "placeName"], keep="first")] *)
Definition drop_duplicates (D P : Type) (df : list (row D P)) : list (row D P) :=
  drop_duplicates_seen [] df.

(** The "sort and deduplicate" step. *)
Definition deduplicate (P : Type) (df : list (row (option Z) P))
  : list (row (option Z) P) :=
  drop_duplicates (sort_values df).

(** The "clean population" step on one cell. *)
Definition clean_population (c : num_cell) : Z :=
  let p := fillna 0%Z (to_numeric c) in
  if (p <=? 0)%Z then 1000%Z else p.

Definition clean_row (r : dated_row) : plan_row :=
  mkRow (stateAbbreviation r) (countyName r) (placeName r)
        (clean_population (population r)) (planApprovalDate r).

(* ================================================================== *)
(** ** Series statistics *)

Definition qmin (a b : Q) : Q := if Qle_bool a b then a else b.
Definition qmax (a b : Q) : Q := if Qle_bool a b then b else a.

(** [Series.min()], [Series.max()]: NaN on an empty series. *)
Definition series_min (l : list Q) : flt :=
  match l with
  | [] => NaN
  | x :: l' => Fin (fold_left qmin l' x)
  end.

Definition series_max (l : list Q) : flt :=
  match l with
  | [] => NaN
  | x :: l' => Fin (fold_left qmax l' x)
  end.

(** [Series.median()]: the middle of the sorted values, the mean of the two
    middle ones when their number is even, NaN on an empty series. *)
Definition series_median (l : list Q) : flt :=
  match l with
  | [] => NaN
  | _ :: _ =>
      let s := sort_by Qle_bool l in
      let n := List.length l in
      if Nat.even n
      then Fin ((nth (n / 2 - 1) s 0 + nth (n / 2) s 0) / 2)
      else Fin (nth (n / 2) s 0)
  end.

Definition count_if (A : Type) (f : A -> bool) (l : list A) : Z :=
  Z.of_nat (List.length (filter f l)).

(** [Series.rank(method="average", pct=True)] at the value [x]: the mean of
    the 1-based ranks of the values equal to [x], over the number of values. *)
Definition rank_average_pct (l : list Q) (x : Q) : Q :=
  let less := count_if (fun y => negb (Qle_bool x y)) l in
  let same := count_if (fun y => Qeq_bool y x) l in
  ((2 * less + same + 1) # 2) / inject_Z (Z.of_nat (List.length l)).

Definition zsum (l : list Z) : Z := fold_right Z.add 0%Z l.
Definition fsum (l : list flt) : flt := fold_right fadd (Fin 0) l.

(** [np.average(x, weights=w)]. *)
Definition np_average (x : list flt) (w : list Z) : result flt :=
  let scl := zsum w in
  if (scl =? 0)%Z then Raise ZeroDivisionError
  else Ok (fdiv (fsum (map (fun xw => fmul (fst xw) (Fin (inject_Z (snd xw))))
                           (combine x w)))
                (Fin (inject_Z scl))).

(* ================================================================== *)
(** ** Scored rows and aggregates *)

(** A row of [latest] with its derived columns. *)
Record plan_record : Type := mkPlan {
  plan : plan_row;
  log_pop : Q;
  score_log_linear : flt;
  score_percentile : flt
}.

(** A row of [county_group]. *)
Record county_row : Type := mkCounty {
  county_stateAbbreviation : string;
  county_countyName : string;
  county_pop : Z;
  county_score_weighted : flt
}.

(** A row of [state_group]. *)
Record state_row : Type := mkState {
  state_stateAbbreviation : string;
  state_pop : Z;
  state_score_weighted : flt
}.

Definition county_key : Type := (string * string)%type.

Definition county_key_eq_dec (a b : county_key) : {a = b} + {a <> b}.
Proof. repeat decide equality. Defined.

(** The group a row belongs to; [groupby] drops the rows whose key has a NaN. *)
Definition county_key_of (r : plan_record) : option county_key :=
  match stateAbbreviation (plan r), countyName (plan r) with
  | Some s, Some c => Some (s, c)
  | _, _ => None
  end.

Definition state_key_of (r : plan_record) : option string :=
  stateAbbreviation (plan r).

Definition county_key_leb (a b : county_key) : bool :=
  match String.compare (fst a) (fst b) with
  | Lt => true
  | Gt => false
  | Eq => String.leb (snd a) (snd b)
  end.

Section GroupBy.

Variable K : Type.
Variable K_eq_dec : forall a b : K, {a = b} + {a <> b}.
Variable K_leb : K -> K -> bool.
Variable key_of : plan_record -> option K.

Fixpoint present_keys (df : list plan_record) : list K :=
  match df with
  | [] => []
  | r :: df' =>
      match key_of r with
      | Some k => k :: present_keys df'
      | None => present_keys df'
      end
  end.

(** The keys of the groups: each once, in sorted order. *)
Definition group_keys (df : list plan_record) : list K :=
  sort_by K_leb (nodup K_eq_dec (present_keys df)).

Definition in_group (k : K) (r : plan_record) : bool :=
  match key_of r with
  | Some k' => if K_eq_dec k' k then true else false
  | None => false
  end.

(** The rows of one group, in frame order. *)
Definition group_of (k : K) (df : list plan_record) : list plan_record :=
  filter (in_group k) df.

End GroupBy.

Definition populations (g : list plan_record) : list Z :=
  map (fun r => population (plan r)) g.

(** The weighted score of one group:
    [np.average(x, weights=latest.loc[x.index, "population"])]. *)
Definition weighted_score (g : list plan_record) : result flt :=
  np_average (map score_log_linear g) (populations g).

(** County-level aggregation. *)
Definition county_group_of (latest : list plan_record) : result (list county_row) :=
  mapM (fun k =>
          let g := group_of county_key_eq_dec county_key_of k latest in
          w <- weighted_score g ;;
          Ok (mkCounty (fst k) (snd k) (zsum (populations g)) w))
       (group_keys county_key_eq_dec county_key_leb county_key_of latest).

(** State-level aggregation. *)
Definition state_group_of (latest : list plan_record) : result (list state_row) :=
  mapM (fun k =>
          let g := group_of string_dec state_key_of k latest in
          w <- weighted_score g ;;
          Ok (mkState k (zsum (populations g)) w))
       (group_keys string_dec String.leb state_key_of latest).

(* ================================================================== *)
(** ** Indexes *)

Section Index.

Variables K R : Type.
Variable K_eq_dec : forall a b : K, {a = b} + {a <> b}.

Definition index : Type := list (K * R).

Definition has_key (k : K) (e : K * R) : bool :=
  if K_eq_dec (fst e) k then true else false.

(** [k in idx.index] *)
Definition contains (idx : index) (k : K) : bool := existsb (has_key k) idx.

Fixpoint unique_keys (ks : list K) : bool :=
  match ks with
  | [] => true
  | k :: ks' => (if in_dec K_eq_dec k ks' then false else true) && unique_keys ks'
  end.

Definition is_unique (idx : index) : bool := unique_keys (map fst idx).

(** What [.loc] hands back: one row, or the frame of the rows under the key.
    A key met once yields a row when the index is unique; which of the two
    it yields otherwise depends on the kind of index, and the resolver
    treats both alike. *)
Inductive selection : Type :=
| Series (r : R)
| DataFrame (rs : list R).

(** The rows stored under [k], in index order. *)
Definition rows_under (k : K) (idx : index) : list R :=
  map snd (filter (has_key k) idx).

(** [idx.loc[k]] *)
Definition loc (idx : index) (k : K) : result selection :=
  match rows_under k idx with
  | [] => Raise KeyError
  | [r] => if is_unique idx then Ok (Series r) else Ok (DataFrame [r])
  | rs => Ok (DataFrame rs)
  end.

(** [if isinstance(row, pd.DataFrame): row = row.iloc[0]] *)
Definition first_row (sel : selection) : result R :=
  match sel with
  | Series r => Ok r
  | DataFrame [] => Raise IndexError
  | DataFrame (r :: _) => Ok r
  end.

End Index.

Arguments Series {R} _.
Arguments DataFrame {R} _.

Definition opt_compare (a b : option string) : comparison :=
  match a, b with
  | Some x, Some y => String.compare x y
  | Some _, None => Lt
  | None, Some _ => Gt
  | None, None => Eq
  end.

(** Order of [sort_index] on the two-level town index, NaN last. *)
Definition place_key_leb (a b : place_key) : bool :=
  match opt_compare (fst a) (fst b) with
  | Lt => true
  | Gt => false
  | Eq => match opt_compare (snd a) (snd b) with
          | Gt => false
          | _ => true
          end
  end.

Definition town_key_of (r : plan_record) : place_key :=
  (option_map Text.upper (stateAbbreviation (plan r)),
   option_map Text.lower (placeName (plan r))).

(** [latest.set_index([state.str.upper(), place.str.lower()]).sort_index()] *)
Definition build_town_index (latest : list plan_record) : index place_key plan_record :=
  sort_by (fun a b => place_key_leb (fst a) (fst b))
          (map (fun r => (town_key_of r, r)) latest).

Definition build_county_index (county_group : list county_row)
  : index county_key county_row :=
  map (fun g => ((Text.upper (county_stateAbbreviation g),
                  Text.lower (county_countyName g)), g)) county_group.

Definition build_state_index (state_group : list state_row)
  : index string state_row :=
  map (fun g => (Text.upper (state_stateAbbreviation g), g)) state_group.

(* ================================================================== *)
(** ** The resolver *)

Module Level.
Inductive t : Type := town | county | state | global_fallback.
End Level.

(** The [details] dictionary, one shape per [resolved_at]. *)
Inductive details : Type :=
| TownDetails (place : option string) (pop : Z) (score : flt)
| CountyDetails (county : string) (score : flt)
| StateDetails (state : string) (score : flt)
| FallbackDetails (note : string).

Definition answer : Type := (flt * Level.t * details)%type.

(** A [try: ... except Exception: pass] block whose body either returns or
    falls off its end. *)
Definition try_except (A : Type) (body : result (option A)) : option A :=
  match body with
  | Ok r => r
  | Raise _ => None
  end.

Definition town_level (state_abbrev place_name_norm : string)
  (town_index : index place_key plan_record) : result (option answer) :=
  let key := (Some state_abbrev, Some place_name_norm) in
  if contains place_key_eq_dec town_index key then
    sel <- loc place_key_eq_dec town_index key ;;
    row <- first_row sel ;;
    let d := TownDetails (placeName (plan row)) (population (plan row))
                         (score_log_linear row) in
    Ok (Some (score_log_linear row, Level.town, d))
  else Ok None.

Definition county_level (state_abbrev county_name : string)
  (county_index : index county_key county_row) : result (option answer) :=
  let key := (state_abbrev, county_name) in
  if contains county_key_eq_dec county_index key then
    sel <- loc county_key_eq_dec county_index key ;;
    crow <- first_row sel ;;
    let d := CountyDetails (_norm (Some county_name)) (county_score_weighted crow) in
    Ok (Some (county_score_weighted crow, Level.county, d))
  else Ok None.

Definition state_level (state_abbrev : string)
  (state_index : index string state_row) : result (option answer) :=
  if contains string_dec state_index state_abbrev then
    sel <- loc string_dec state_index state_abbrev ;;
    srow <- first_row sel ;;
    let d := StateDetails state_abbrev (state_score_weighted srow) in
    Ok (Some (state_score_weighted srow, Level.state, d))
  else Ok None.

(** The value of the last branch, before rounding. *)
Definition fallback_value (log_min log_max log_median : flt) : flt :=
  if feqb log_max log_min then Fin 50
  else fadd (fmul (fdiv (fsub log_median log_min) (fsub log_max log_min))
                  (Fin 99))
            (Fin 1).

Definition no_match_note : string := "no match found for town/county/state".

Definition get_best_score_with_meta
  (state_abbrev county_name place_name : option string)
  (town_index : index place_key plan_record)
  (county_index : index county_key county_row)
  (state_index : index string state_row)
  (log_min log_max log_median : flt) : answer :=
  let state_abbrev := Text.upper (_norm state_abbrev) in
  let county_name := Text.lower (_norm county_name) in
  let place_name_norm := Text.lower (_norm place_name) in
  match try_except (town_level state_abbrev place_name_norm town_index) with
  | Some a => a
  | None =>
  match try_except (county_level state_abbrev county_name county_index) with
  | Some a => a
  | None =>
  match try_except (state_level state_abbrev state_index) with
  | Some a => a
  | None =>
      (fround2 (fallback_value log_min log_max log_median),
       Level.global_fallback, FallbackDetails no_match_note)
  end end end.

(* ================================================================== *)
(** ** [initialize_dataset] *)

(** The tuple [initialize_dataset] returns. *)
Record snapshot : Type := mkSnapshot {
  latest : list plan_record;
  town_index : index place_key plan_record;
  county_index : index county_key county_row;
  state_index : index string state_row;
  log_min : flt;
  log_max : flt;
  log_median : flt
}.

(** The "linear score" step on one value of [log_pop], with the rounding that
    follows it. *)
Definition linear_score (log_min log_max : flt) (lp : Q) : flt :=
  fround2
    (if feqb log_max log_min then Fin 50
     else fadd (fmul (fdiv (fsub (Fin lp) log_min) (fsub log_max log_min))
                     (Fin 99))
               (Fin 1)).

(** The "percentile rank" step on one value of [log_pop]. *)
Definition percentile_score (logs : list Q) (lp : Q) : flt :=
  fround2 (Fin (rank_average_pct logs lp * 100)).

Section Initialize.

(** [np.log1p] on a cleaned population. *)
Variable log1p : Z -> Q.

Definition log_column (df : list plan_row) : list Q :=
  map (fun r => log1p (population r)) df.

Definition score_row (log_min log_max : flt) (logs : list Q) (r : plan_row)
  : plan_record :=
  let lp := log1p (population r) in
  mkPlan r lp (linear_score log_min log_max lp) (percentile_score logs lp).

Definition initialize_dataset (df : list csv_row) : result snapshot :=
  (* Convert date columns safely *)
  let df := map convert_date df in
  (* Sort and deduplicate *)
  let df_sorted := sort_values df in
  let latest := drop_duplicates df_sorted in
  (* Clean population *)
  let latest := map clean_row latest in
  (* Log-transform and global stats *)
  let logs := log_column latest in
  let log_min := series_min logs in
  let log_max := series_max logs in
  let log_median := series_median logs in
  (* Linear score, percentile rank *)
  let latest := map (score_row log_min log_max logs) latest in
  (* County-level and state-level aggregation *)
  county_group <- county_group_of latest ;;
  state_group <- state_group_of latest ;;
  (* Build indexes *)
  Ok (mkSnapshot latest
                 (build_town_index latest)
                 (build_county_index county_group)
                 (build_state_index state_group)
                 log_min log_max log_median).

End Initialize.

(** The resolver bound to a snapshot, as [get_zip_coverage_score] binds it to
    the module globals. *)
Definition resolve (snap : snapshot) (state_abbrev county_name place_name : option string)
  : answer :=
  get_best_score_with_meta state_abbrev county_name place_name
    (town_index snap) (county_index snap) (state_index snap)
    (log_min snap) (log_max snap) (log_median snap).

(** A computable stand-in for [np.log1p], used to run the definitions on
    examples: the integer part of the base-2 logarithm of [1 + p]. *)
Definition log1p_floor (p : Z) : Q := inject_Z (Z.log2 (1 + p)).

(* ================================================================== *)
(** ** Vocabulary of the statements *)

(** Order on approval dates in which a missing date is the least element. *)
Definition date_le (a b : option Z) : Prop :=
  match a, b with
  | None, _ => True
  | Some _, None => False
  | Some x, Some y => (x <= y)%Z
  end.

(** A frame in descending order of approval date, missing dates last. *)
Definition descending_dates (P : Type) (s : list (row (option Z) P)) : Prop :=
  StronglySorted
    (fun r1 r2 => date_le (planApprovalDate r2) (planApprovalDate r1)) s.

(** The weighted mean [sum(score_i * population_i) / sum(population_i)] of a
    group, written out on the float model. *)
Definition weighted_mean (g : list plan_record) : flt :=
  fdiv (fsum (map (fun r => fmul (score_log_linear r)
                                 (Fin (inject_Z (population (plan r))))) g))
       (Fin (inject_Z (zsum (populations g)))).

(** The population of a row of [latest] is positive. *)
Definition positive_population (r : plan_record) : Prop :=
  (0 < population (plan r))%Z.

(** The keys of a query after the resolver has normalised them. *)
Definition query_state (state_abbrev : option string) : string :=
  Text.upper (_norm state_abbrev).

Definition query_county (county_name : option string) : string :=
  Text.lower (_norm county_name).

Definition query_place (place_name : option string) : string :=
  Text.lower (_norm place_name).

Definition town_query (state_abbrev place_name : option string) : place_key :=
  (Some (query_state state_abbrev), Some (query_place place_name)).

Definition county_query (state_abbrev county_name : option string) : county_key :=
  (query_state state_abbrev, query_county county_name).

Definition score_of (a : answer) : flt := fst (fst a).
Definition level_of (a : answer) : Level.t := snd (fst a).
Definition details_of (a : answer) : details := snd a.

(** The first row an index stores under a key, if any. *)
Definition first_under (K R : Type) (K_eq_dec : forall a b : K, {a = b} + {a <> b})
  (k : K) (idx : index K R) : option R :=
  hd_error (rows_under K_eq_dec k idx).

(** The answers of the four levels. *)
Definition town_answer (row : plan_record) : answer :=
  (score_log_linear row, Level.town,
   TownDetails (placeName (plan row)) (population (plan row)) (score_log_linear row)).

Definition county_answer (county_name : string) (crow : county_row) : answer :=
  (county_score_weighted crow, Level.county,
   CountyDetails (_norm (Some county_name)) (county_score_weighted crow)).

Definition state_answer (state_abbrev : string) (srow : state_row) : answer :=
  (state_score_weighted srow, Level.state,
   StateDetails state_abbrev (state_score_weighted srow)).

Definition fallback_answer (log_min log_max log_median : flt) : answer :=
  (fround2 (fallback_value log_min log_max log_median),
   Level.global_fallback, FallbackDetails no_match_note).

(** The aggregate rows of one county and of one state. *)
Definition county_row_of (latest : list plan_record) (k : county_key) : county_row :=
  let g := group_of county_key_eq_dec county_key_of k latest in
  mkCounty (fst k) (snd k) (zsum (populations g)) (weighted_mean g).

Definition state_row_of (latest : list plan_record) (k : string) : state_row :=
  let g := group_of string_dec state_key_of k latest in
  mkState k (zsum (populations g)) (weighted_mean g).

(** The rows of [latest] before scoring: dates converted, duplicates
    dropped, populations cleaned. *)
Definition cleaned_rows (df : list csv_row) : list plan_row :=
  map clean_row (deduplicate (map convert_date df)).

(** The rows of [latest] with their scores. *)
Definition scored_rows (log1p : Z -> Q) (df : list csv_row) : list plan_record :=
  let logs := log_column log1p (cleaned_rows df) in
  map (score_row log1p (series_min logs) (series_max logs) logs) (cleaned_rows df).

(** The snapshot of a table without rows. *)
Definition empty_snapshot : snapshot := mkSnapshot [] [] [] [] NaN NaN NaN.

(* ================================================================== *)
(** ** Example tables *)

(** A query argument that is present. *)
Definition given (s : string) : option string := Some s.

Definition csv (s c p : string) (n : num_cell) (d : date_cell) : csv_row :=
  mkRow (Some s) (Some c) (Some p) n d.

(** Two towns of one county. *)
Definition california_table : list csv_row :=
  [ csv "CA" "LA County" "Los Angeles" (NumValue 4000000) (DateParsed 20200101);
    csv "CA" "LA County" "Pasadena" (NumValue 140000) (DateParsed 20190101) ].


(** Two towns whose populations clean to the same value. *)
Definition same_population_table : list csv_row :=
  [ csv "VT" "Essex" "Granby" NumAbsent (DateUnparsable "pending");
    csv "VT" "Essex" "Victory" (NumValue 1000) DateAbsent ].



(** The snapshot built from a table, for tables on which
    [initialize_dataset] raises nothing. *)
Definition built (log1p : Z -> Q) (df : list csv_row) : snapshot :=
  match initialize_dataset log1p df with
  | Ok snap => snap
  | Raise _ => empty_snapshot
  end.


(* ================================================================== *)
(** ** [get_zip_coverage_score] *)

(** What [Nominatim("us").query_postal_code] hands back for a ZIP code: a
    series of fields, each a text or NaN. *)
Module Geo.
Record t : Type := mk {
  place_name : option string;
  county_name : option string;
  state_code : option string;
  state_name : option string
}.
End Geo.

(** The postal lookup; [None]: it hands back no series (or an empty one). *)
Definition nominatim : Type := string -> option Geo.t.

Fixpoint zeros (n : nat) : string :=
  match n with
  | O => EmptyString
  | S n' => String "0" (zeros n')
  end.

Definition is_sign (c : ascii) : bool :=
  Ascii.eqb c "+" || Ascii.eqb c "-".

(** [s.zfill(width)]: zeros on the left, after a leading sign. *)
Definition zfill (width : nat) (s : string) : string :=
  let n := String.length s in
  if (width <=? n)%nat then s
  else match s with
       | EmptyString => zeros (width - n)
       | String c s' =>
           if is_sign c then String c (String.append (zeros (width - n)) s')
           else String.append (zeros (width - n)) s
       end.

(** [s.split(",")[0]] *)
Fixpoint before_comma (s : string) : string :=
  match s with
  | EmptyString => EmptyString
  | String c s' => if Ascii.eqb c "," then EmptyString else String c (before_comma s')
  end.

(** The dictionary [get_zip_coverage_score] returns; the three names are
    absent when the lookup knows no place. *)
Module Coverage.
Record t : Type := mk {
  zip : string;
  place_name : option string;
  county_name : option string;
  state : option string;
  score : flt;
  level : Level.t;
  meta : details
}.
End Coverage.

(** [get_zip_coverage_score], with the lookup [NOMI] and the module globals
    [TOWN_INDEX] ... [LOG_MEDIAN] as [rci_aggregate] sets them: the fields of
    a snapshot.  The ZIP code is the text [str(zip_code)]. *)
Definition get_zip_coverage_score (NOMI : nominatim) (snap : snapshot)
  (zip_code : string) : Coverage.t :=
  let zip_str := zfill 5 zip_code in
  let unresolved :=
    let '(val, lvl, meta) :=
      get_best_score_with_meta (Some EmptyString) (Some EmptyString) (Some EmptyString)
        (town_index snap) (county_index snap) (state_index snap)
        (log_min snap) (log_max snap) (log_median snap) in
    Coverage.mk zip_str None None None val lvl meta in
  match NOMI zip_str with
  | None => unresolved
  | Some geo =>
      match Geo.place_name geo with
      | None => unresolved
      | Some _ =>
          let place_name := before_comma (_norm (Geo.place_name geo)) in
          let county_name := Text.lower (_norm (Geo.county_name geo)) in
          let state_abbrev := Text.upper (_norm (Geo.state_code geo)) in
          let '(score, level, details) :=
            get_best_score_with_meta
              (Some state_abbrev) (Some county_name) (Some place_name)
              (town_index snap) (county_index snap) (state_index snap)
              (log_min snap) (log_max snap) (log_median snap) in
          Coverage.mk zip_str (Some place_name) (Some county_name)
                      (Some state_abbrev) (fround2 score) level details
      end
  end.

(* ================================================================== *)
(** ** More vocabulary *)

Definition head_is_space (s : string) : bool :=
  match s with
  | EmptyString => false
  | String c _ => Text.isspace c
  end.

Fixpoint last_is_space (s : string) : bool :=
  match s with
  | EmptyString => false
  | String c EmptyString => Text.isspace c
  | String _ s' => last_is_space s'
  end.




Definition head_has_sign (s : string) : bool :=
  match s with
  | EmptyString => false
  | String c _ => is_sign c
  end.

(** The score a [details] dictionary carries, if any. *)
Definition details_score (d : details) : option flt :=
  match d with
  | TownDetails _ _ x => Some x
  | CountyDetails _ x => Some x
  | StateDetails _ x => Some x
  | FallbackDetails _ => None
  end.

(** The lookup knows no place for the ZIP code. *)
Definition place_unknown (NOMI : nominatim) (zip_str : string) : Prop :=
  match NOMI zip_str with
  | None => True
  | Some geo => Geo.place_name geo = None
  end.

(** A lookup that knows one ZIP code, for examples. *)
Definition pasadena_lookup : nominatim :=
  fun z =>
    if String.eqb z "91101"
    then Some (Geo.mk (given "Pasadena, CA") (given "Los Angeles") (given "CA")
                      (given "California"))
    else Some (Geo.mk None None None None).

(* ================================================================== *)
(** ** Python dictionaries

    Insertion-ordered, one value per key: assigning to a key that is present
    replaces its value where it stands. *)

Module Dict.
Section Dict.

Variables K V : Type.
Variable K_eq_dec : forall a b : K, {a = b} + {a <> b}.

Definition t : Type := list (K * V).

(** [d.get(k)] *)
Fixpoint get (k : K) (d : t) : option V :=
  match d with
  | [] => None
  | (k', v) :: d' => if K_eq_dec k' k then Some v else get k d'
  end.

(** [d[k] = v] *)
Fixpoint set (k : K) (v : V) (d : t) : t :=
  match d with
  | [] => [(k, v)]
  | (k', v') :: d' =>
      if K_eq_dec k' k then (k', v) :: d' else (k', v') :: set k v d'
  end.

(** [dict(pairs)] *)
Definition of_pairs (l : list (K * V)) : t :=
  fold_left (fun d kv => set (fst kv) (snd kv) d) l [].

(** The last value a list of pairs gives to a key. *)
Fixpoint last_value (k : K) (l : list (K * V)) : option V :=
  match l with
  | [] => None
  | (k', v) :: l' =>
      match last_value k l' with
      | Some x => Some x
      | None => if K_eq_dec k' k then Some v else None
      end
  end.

Definition keys (d : t) : list K := map fst d.
Definition values (d : t) : list V := map snd d.

End Dict.
End Dict.

(* ================================================================== *)
(** ** [DebtRevenueAnalyzer] *)

(** A row of the revenue table once [__init__] has made its Amount column a
    float: the columns "Geographic Area Name (NAME)", "Meaning of Aggregate
    Description (AGG_DESC_LABEL)" and "Amount (AMOUNT)".  The name may be
    missing (NaN), the amount may be NaN; the label is a text. *)
Record gov_row : Type := mkGov {
  gov_name : option string;
  gov_label : string;
  gov_amount : flt
}.

Fixpoint gov_names (df : list gov_row) : list string :=
  match df with
  | [] => []
  | r :: df' =>
      match gov_name r with
      | Some n => n :: gov_names df'
      | None => gov_names df'
      end
  end.

(** The keys of [df.groupby("Geographic Area Name (NAME)")], in the order of
    the iteration. *)
Definition gov_groups (df : list gov_row) : list string :=
  sort_by String.leb (nodup string_dec (gov_names df)).

Definition gov_in_group (state : string) (r : gov_row) : bool :=
  match gov_name r with
  | Some n => if string_dec n state then true else false
  | None => false
  end.

(** [dict(zip(group[label], group[amount]))] *)
Definition gov_mapping (df : list gov_row) (state : string) : Dict.t string flt :=
  Dict.of_pairs string_dec
    (map (fun r => (gov_label r, gov_amount r)) (filter (gov_in_group state) df)).

(** The loop that builds [self.state_data]. *)
Definition build_state_data (df : list gov_row) : Dict.t string (Dict.t string flt) :=
  fold_left (fun sd state => Dict.set string_dec state (gov_mapping df state) sd)
            (gov_groups df) [].

Definition debt_key : string := "Debt - Total Debt Outstanding".
Definition revenue_key : string := "Revenue - Total Revenue".

(** [state_data.get(state_name, {})] *)
Definition state_info_of (state_data : Dict.t string (Dict.t string flt))
  (state_name : string) : Dict.t string flt :=
  match Dict.get string_dec state_name state_data with
  | Some info => info
  | None => []
  end.

Definition list_categories (state_data : Dict.t string (Dict.t string flt))
  (state_name : string) : list string :=
  Dict.keys (state_info_of state_data state_name).

Definition get_value (state_data : Dict.t string (Dict.t string flt))
  (state_name category : string) : option flt :=
  Dict.get string_dec category (state_info_of state_data state_name).

Definition get_debt_to_revenue_ratio (state_data : Dict.t string (Dict.t string flt))
  (state_name debt_key revenue_key : string)
  : option flt * option flt * option flt :=
  let state_info := state_info_of state_data state_name in
  let debt := Dict.get string_dec debt_key state_info in
  let revenue := Dict.get string_dec revenue_key state_info in
  match debt, revenue with
  | Some d, Some r =>
      if feqb r (Fin 0) then (None, debt, revenue)
      else (Some (fdiv d r), debt, revenue)
  | _, _ => (None, debt, revenue)
  end.

Definition _compute_all_ratios (state_data : Dict.t string (Dict.t string flt))
  : Dict.t string flt :=
  fold_left
    (fun ratios state =>
       match fst (fst (get_debt_to_revenue_ratio state_data state debt_key revenue_key)) with
       | Some ratio => Dict.set string_dec state ratio ratios
       | None => ratios
       end)
    (Dict.keys state_data) [].

(** [a < b] on floats: false as soon as one side is NaN. *)
Definition flt_ltb (a b : flt) : bool :=
  match a, b with
  | Fin x, Fin y => negb (Qle_bool y x)
  | _, _ => false
  end.

(** A builtin that may raise ValueError. *)
Inductive raises (A : Type) : Type :=
| Returns (a : A)
| ValueError.

Arguments Returns {A} _.
Arguments ValueError {A}.

(** The builtins [min] and [max] on a sequence of floats: the first item,
    replaced by each later item that compares smaller (larger). *)
Definition py_min (l : list flt) : raises flt :=
  match l with
  | [] => ValueError
  | x :: l' => Returns (fold_left (fun m y => if flt_ltb y m then y else m) l' x)
  end.

Definition py_max (l : list flt) : raises flt :=
  match l with
  | [] => ValueError
  | x :: l' => Returns (fold_left (fun m y => if flt_ltb m y then y else m) l' x)
  end.

Definition get_relative_score (all_ratios : Dict.t string flt) (state_name : string)
  : raises (option flt) :=
  match Dict.get string_dec state_name all_ratios with
  | None => Returns None
  | Some state_r =>
      match py_min (Dict.values all_ratios) with
      | ValueError => ValueError
      | Returns min_r =>
          match py_max (Dict.values all_ratios) with
          | ValueError => ValueError
          | Returns max_r =>
              if feqb max_r min_r then Returns (Some (Fin 50))
              else Returns (Some (fmul (fdiv (fsub state_r min_r) (fsub max_r min_r))
                                       (Fin 100)))
          end
      end
  end.

(** The analyzer after [__init__]. *)
Record analyzer : Type := mkAnalyzer {
  state_data : Dict.t string (Dict.t string flt);
  all_ratios : Dict.t string flt
}.

Definition DebtRevenueAnalyzer (df : list gov_row) : analyzer :=
  let state_data := build_state_data df in
  mkAnalyzer state_data (_compute_all_ratios state_data).

(** Every amount of the table is a number. *)
Definition finite_amounts (df : list gov_row) : Prop :=
  Forall (fun r => exists q, gov_amount r = Fin q) df.

(** The last amount the table lists for a state and a label. *)
Fixpoint last_amount (df : list gov_row) (state label : string) : option flt :=
  match df with
  | [] => None
  | r :: df' =>
      match last_amount df' state label with
      | Some v => Some v
      | None =>
          if gov_in_group state r && (if string_dec (gov_label r) label then true else false)
          then Some (gov_amount r) else None
      end
  end.

(** A revenue table of three states, for examples. *)
Definition gov (n l : string) (a : Q) : gov_row := mkGov (Some n) l (Fin a).

Definition revenue_table : list gov_row :=
  [ gov "Texas" "Debt - Total Debt Outstanding" 50;
    gov "Texas" "Revenue - Total Revenue" 200;
    gov "Florida" "Revenue - Total Revenue" 100;
    gov "Florida" "Debt - Total Debt Outstanding" 75;
    gov "Ohio" "Debt - Total Debt Outstanding" 40;
    gov "Ohio" "Revenue - Total Revenue" 80;
    gov "Guam" "Debt - Total Debt Outstanding" 10;
    gov "Guam" "Revenue - Total Revenue" 0;
    gov "Texas" "Debt - Total Debt Outstanding" 60 ].

(** The debt-to-revenue ratio of a state, from the last amounts the table
    lists for its debt and its revenue: none when one of the two is not
    listed or the revenue is zero. *)
Definition debt_ratio (df : list gov_row) (state : string) : option flt :=
  match last_amount df state debt_key, last_amount df state revenue_key with
  | Some d, Some r => if feqb r (Fin 0) then None else Some (fdiv d r)
  | _, _ => None
  end.

(* ================================================================== *)
(** ** [get_state_from_zip] and [calculate_rci] *)

(** [get_state_from_zip], with the lookup [_nom]. *)
Definition get_state_from_zip (_nom : nominatim) (zip_code : string)
  : option (string * string) :=
  match _nom zip_code with
  | None => None
  | Some location =>
      match Geo.state_name location, Geo.county_name location with
      | Some state_name, Some county_name =>
          Some (Text.strip state_name, Text.strip county_name)
      | _, _ => None
      end
  end.

(** What [get_eal_score] returns: a float, or the text of a message. *)
Inductive eal_answer : Type :=
| EalScore (x : flt)
| EalMessage (s : string).

(** [np.mean] of a list of floats. *)
Definition np_mean (l : list flt) : flt :=
  fdiv (fsum l) (Fin (inject_Z (Z.of_nat (List.length l)))).

(** [[s for s in xs if s is not None]] *)
Fixpoint not_none (xs : list (option flt)) : list flt :=
  match xs with
  | [] => []
  | Some x :: xs' => x :: not_none xs'
  | None :: xs' => not_none xs'
  end.

(** The dictionary [calculate_rci] returns. *)
Module Rci.
Inductive t : Type :=
| Invalid (zip : string) (error : string)
| Report (zip state county : string)
         (hazard_score debt_revenue_score bridge_score eal_score rci : option flt).
End Rci.

Definition invalid_zip_note : string := "Invalid ZIP code or no match found.".

Section CalculateRci.

(** The two postal lookups, the module state of the hazard scores, the debt
    analyzer, and the two metrics of the modules that are not embedded:
    [get_county_metric] on the bridge data and [get_eal_score] on the table
    of expected annual losses. *)
Variable _nom : nominatim.
Variable NOMI : nominatim.
Variable snap : snapshot.
Variable debt_analyzer : analyzer.
Variable get_county_metric : string -> string -> option flt.
Variable get_eal_score : string -> string -> eal_answer.

Definition calculate_rci (zip_code : string) : raises Rci.t :=
  match get_state_from_zip _nom zip_code with
  | None => Returns (Rci.Invalid zip_code invalid_zip_note)
  | Some (state_name, county_name) =>
      let haz_data := get_zip_coverage_score NOMI snap zip_code in
      let haz_score := Some (Coverage.score haz_data) in
      match get_relative_score (all_ratios debt_analyzer) state_name with
      | ValueError => ValueError
      | Returns debt_score =>
          let bridge_score := get_county_metric county_name state_name in
          let eal_score :=
            match get_eal_score county_name state_name with
            | EalScore x => Some x
            | EalMessage _ => None
            end in
          let scores := not_none [haz_score; debt_score; bridge_score; eal_score] in
          let rci :=
            match scores with
            | [] => None
            | _ :: _ => Some (fround2 (np_mean scores))
            end in
          Returns (Rci.Report zip_code state_name county_name
                              haz_score debt_score bridge_score eal_score rci)
      end
  end.

End CalculateRci.


(** Lookups and metrics for examples: one ZIP code with a state and a
    county, a bridge metric of 80 and no expected-loss score. *)
Definition dallas_lookup : nominatim :=
  fun z =>
    if String.eqb z "75001"
    then Some (Geo.mk (given "Addison") (given " Dallas ") (given "TX")
                      (given "Texas"))
    else None.


Definition no_eal (county state : string) : eal_answer :=
  EalMessage "No match found.".

Definition no_bridge (county state : string) : option flt := None.

(* ================================================================== *)
(** ** [normalize_state_name] of [EAL_finder] *)

(** [str(name).strip().upper()], on a text. *)
Definition normalize_state_name (name : string) : string :=
  Text.upper (Text.strip name).

(* ================================================================== *)
(** * Properties *)

(** ** Stable sorting *)

Section StableSortFacts.

Variable A : Type.
Variable leb : A -> A -> bool.

Let before (x y : A) : Prop := leb x y = true.

Lemma insert_by_perm (x : A) (l : list A) :
  Permutation (insert_by leb x l) (x :: l).
Proof.
  induction l as [|y l IH]; simpl.
  - apply Permutation_refl.
  - destruct (leb x y).
    + apply Permutation_refl.
    + eapply perm_trans; [apply perm_skip, IH | apply perm_swap].
Qed.

Lemma sort_by_perm (l : list A) : Permutation (sort_by leb l) l.
Proof.
  induction l as [|x l IH]; simpl.
  - constructor.
  - eapply perm_trans; [apply insert_by_perm | now apply perm_skip].
Qed.

Lemma sort_by_In (x : A) (l : list A) : In x (sort_by leb l) <-> In x l.
Proof.
  split; apply Permutation_in;
    [apply sort_by_perm | apply Permutation_sym, sort_by_perm].
Qed.


Lemma sort_by_nil (l : list A) : sort_by leb l = [] -> l = [].
Proof.
  intros H. apply Permutation_nil. rewrite <- H.
  apply sort_by_perm.
Qed.


(** Stability: the rows selected by [p] keep their order when every two
    of them compare as equal. *)
Lemma filter_insert_by (p : A -> bool) (x : A) (l : list A) :
  (forall y, p x = true -> p y = true -> leb x y = true) ->
  filter p (insert_by leb x l) = if p x then x :: filter p l else filter p l.
Proof.
  intros Hp. induction l as [|y l IH]; simpl; [reflexivity|].
  destruct (leb x y) eqn:Hxy; simpl; [reflexivity|].
  destruct (p y) eqn:Hy.
  - destruct (p x) eqn:Hx.
    + rewrite (Hp y eq_refl Hy) in Hxy. discriminate.
    + now rewrite IH.
  - exact IH.
Qed.

Lemma filter_sort_by (p : A -> bool) (l : list A) :
  (forall x y, p x = true -> p y = true -> leb x y = true) ->
  filter p (sort_by leb l) = filter p l.
Proof.
  intros Hp. induction l as [|x l IH]; simpl; [reflexivity|].
  rewrite filter_insert_by by (intros y; apply Hp).
  now rewrite IH.
Qed.

Hypothesis leb_total : forall x y, leb x y = true \/ leb y x = true.
Hypothesis leb_trans :
  forall x y z, leb x y = true -> leb y z = true -> leb x z = true.

Lemma insert_by_StronglySorted (x : A) (l : list A) :
  StronglySorted before l -> StronglySorted before (insert_by leb x l).
Proof.
  induction 1 as [|y l Hs IH Hall]; simpl.
  - constructor; constructor.
  - destruct (leb x y) eqn:Hxy.
    + constructor; [now constructor|].
      constructor; [exact Hxy|].
      eapply Forall_impl; [|exact Hall].
      intros z Hyz. exact (leb_trans Hxy Hyz).
    + constructor; [exact IH|].
      assert (Hyx : leb y x = true)
        by (destruct (leb_total x y); congruence).
      rewrite Forall_forall. intros z Hz.
      apply (Permutation_in _ (insert_by_perm x l)) in Hz.
      destruct Hz as [<-|Hz]; [exact Hyx|].
      rewrite Forall_forall in Hall. now apply Hall.
Qed.

Lemma sort_by_StronglySorted (l : list A) : StronglySorted before (sort_by leb l).
Proof.
  induction l as [|x l IH]; simpl.
  - constructor.
  - now apply insert_by_StronglySorted.
Qed.

End StableSortFacts.

(** ** The order on approval dates *)

Lemma date_geb_total (a b : option Z) : date_geb a b = true \/ date_geb b a = true.
Proof.
  destruct a as [x|], b as [y|]; simpl; auto.
  destruct (Z.leb_spec y x); [now left | right].
  apply Z.leb_le. lia.
Qed.

Lemma date_geb_trans (a b c : option Z) :
  date_geb a b = true -> date_geb b c = true -> date_geb a c = true.
Proof.
  destruct a as [x|], b as [y|], c as [z|]; simpl; try congruence.
  rewrite !Z.leb_le. lia.
Qed.

Lemma date_geb_le (a b : option Z) : date_geb b a = true <-> date_le a b.
Proof.
  destruct a as [x|], b as [y|]; simpl; try tauto.
  - apply Z.leb_le.
  - split; [discriminate | tauto].
Qed.

(** ** [drop_duplicates] *)

Section DropDuplicatesFacts.

Variables D P : Type.

Let key (r : row D P) : place_key := subset_key r.

Lemma drop_duplicates_seen_In (seen : list place_key) (df : list (row D P)) (r : row D P) :
  In r (drop_duplicates_seen seen df) -> In r df /\ ~ In (key r) seen.
Proof.
  revert seen. induction df as [|a df IH]; simpl; intros seen H; [tauto|].
  destruct (in_dec place_key_eq_dec (subset_key a) seen) as [Hin|Hout].
  - destruct (IH _ H); auto.
  - destruct H as [<-|H]; [auto|].
    destruct (IH _ H) as [H1 H2]. split; [auto|].
    intros Hs. apply H2. now right.
Qed.

Lemma drop_duplicates_seen_NoDup (seen : list place_key) (df : list (row D P)) :
  NoDup (map key (drop_duplicates_seen seen df)).
Proof.
  revert seen. induction df as [|a df IH]; simpl; intros seen; [constructor|].
  destruct (in_dec place_key_eq_dec (subset_key a) seen) as [Hin|Hout]; [apply IH|].
  simpl. constructor; [|apply IH].
  rewrite in_map_iff. intros (r & Hk & Hr).
  apply drop_duplicates_seen_In in Hr. destruct Hr as [_ Hr].
  apply Hr. left. symmetry. exact Hk.
Qed.

(** A kept row is the first row of the frame with its key. *)
Lemma drop_duplicates_seen_first (seen : list place_key) (df : list (row D P)) (r : row D P) :
  In r (drop_duplicates_seen seen df) ->
  exists l1 l2, df = l1 ++ r :: l2 /\ ~ In (key r) (map key l1).
Proof.
  revert seen. induction df as [|a df IH]; simpl; intros seen H; [tauto|].
  destruct (in_dec place_key_eq_dec (subset_key a) seen) as [Hin|Hout].
  - destruct (drop_duplicates_seen_In _ _ _ H) as [_ Hr].
    destruct (IH _ H) as (l1 & l2 & -> & Hl1).
    exists (a :: l1), l2. split; [reflexivity|].
    simpl. intros [Hk|Hk]; [|tauto].
    apply Hr. rewrite <- Hk. exact Hin.
  - destruct H as [<-|H].
    + exists [], df. split; [reflexivity | simpl; tauto].
    + destruct (drop_duplicates_seen_In _ _ _ H) as [_ Hr].
      destruct (IH _ H) as (l1 & l2 & -> & Hl1).
      exists (a :: l1), l2. split; [reflexivity|].
      simpl. intros [Hk|Hk]; [|tauto].
      apply Hr. left. exact Hk.
Qed.

(** Every key of the frame survives. *)
Lemma drop_duplicates_seen_complete (seen : list place_key) (df : list (row D P)) (r' : row D P) :
  In r' df -> ~ In (key r') seen ->
  exists r, In r (drop_duplicates_seen seen df) /\ key r = key r'.
Proof.
  revert seen. induction df as [|a df IH]; simpl; intros seen H Hs; [tauto|].
  destruct (in_dec place_key_eq_dec (subset_key a) seen) as [Hin|Hout].
  - destruct H as [->|H]; [contradiction|]. now apply IH.
  - destruct (place_key_eq_dec (key a) (key r')) as [Heq|Hne].
    + exists a. split; [now left | exact Heq].
    + destruct H as [->|H]; [congruence|].
      destruct (IH (subset_key a :: seen) H) as (r & Hr & Hk).
      * simpl. intros [E|E]; [now apply Hne | now apply Hs].
      * exists r. split; [now right | exact Hk].
Qed.



End DropDuplicatesFacts.

(** ** The deduplicator *)

Section DeduplicateFacts.

Variable P : Type.

Let frame : Type := list (row (option Z) P).
Let newer (r1 r2 : row (option Z) P) : Prop :=
  date_geb (planApprovalDate r1) (planApprovalDate r2) = true.

Lemma sort_values_sorted (df : frame) : StronglySorted newer (sort_values df).
Proof.
  apply sort_by_StronglySorted.
  - intros x y. apply date_geb_total.
  - intros x y z. apply date_geb_trans.
Qed.

Lemma sort_values_In (df : frame) (r : row (option Z) P) :
  In r (sort_values df) <-> In r df.
Proof. apply sort_by_In. Qed.

Lemma deduplicate_In (df : frame) (r : row (option Z) P) :
  In r (deduplicate df) -> In r df.
Proof.
  intros H. apply drop_duplicates_seen_In in H.
  now apply sort_values_In.
Qed.

Lemma deduplicate_NoDup (df : frame) :
  NoDup (map (fun r => subset_key r) (deduplicate df)).
Proof. apply drop_duplicates_seen_NoDup. Qed.

(** In any frame in descending date order, the row [drop_duplicates] keeps
    for a key carries the greatest date of the key. *)
Lemma drop_duplicates_newest (df : frame) (r r' : row (option Z) P) :
  StronglySorted newer df ->
  In r (drop_duplicates df) -> In r' df -> subset_key r' = subset_key r ->
  date_le (planApprovalDate r') (planApprovalDate r).
Proof.
  intros Hs Hr Hr' Hk.
  apply drop_duplicates_seen_first in Hr.
  destruct Hr as (l1 & l2 & -> & Hl1).
  apply date_geb_le.
  apply in_app_or in Hr'. destruct Hr' as [Hr'|[<-|Hr']].
  - exfalso. apply Hl1. rewrite in_map_iff. exists r'. auto.
  - destruct (date_geb_total (planApprovalDate r) (planApprovalDate r)); auto.
  - clear Hl1. induction l1 as [|a l1 IH]; simpl in Hs.
    + inversion Hs as [|? ? _ Hall]; subst.
      rewrite Forall_forall in Hall. now apply Hall.
    + inversion Hs; subst. auto.
Qed.

Lemma deduplicate_complete (df : frame) (r' : row (option Z) P) :
  In r' df -> exists r, In r (deduplicate df) /\ subset_key r = subset_key r'.
Proof.
  intros H. apply drop_duplicates_seen_complete.
  - now apply sort_values_In.
  - simpl. tauto.
Qed.


Lemma descending_dates_sorted (s : frame) :
  descending_dates s -> StronglySorted newer s.
Proof.
  unfold descending_dates. induction 1 as [|r s Hs IH Hall]; constructor; auto.
  rewrite Forall_forall in *. intros r' Hr'.
  apply date_geb_le. now apply Hall.
Qed.

End DeduplicateFacts.

(** C3.  After deduplication no two rows share a (stateAbbreviation,
    placeName) pair, and the row kept for a pair has the greatest approval
    date of the rows of the input with that pair, a missing date being below
    every date: if some row of the pair is dated, so is the kept one, and its
    date is at least as late.  Every pair of the input keeps a row.  The
    first two facts hold in whatever order the sort leaves the rows with
    equal dates. *)
Theorem deduplicate_keeps_newest (P : Type) (df : list (row (option Z) P)) :
  NoDup (map (fun r => subset_key r) (deduplicate df)) /\
  (forall r, In r (deduplicate df) ->
     In r df /\
     forall r', In r' df -> subset_key r' = subset_key r ->
       date_le (planApprovalDate r') (planApprovalDate r)) /\
  (forall r r' t, In r (deduplicate df) -> In r' df ->
     subset_key r' = subset_key r -> planApprovalDate r' = Some t ->
     exists t', planApprovalDate r = Some t' /\ (t <= t')%Z) /\
  (forall r', In r' df ->
     exists r, In r (deduplicate df) /\ subset_key r = subset_key r') /\
  (forall s, Permutation df s -> descending_dates s ->
     NoDup (map (fun r => subset_key r) (drop_duplicates s)) /\
     forall r r', In r (drop_duplicates s) -> In r' df ->
       subset_key r' = subset_key r ->
       date_le (planApprovalDate r') (planApprovalDate r)).
Proof.
  assert (Hmax : forall r, In r (deduplicate df) ->
     forall r', In r' df -> subset_key r' = subset_key r ->
       date_le (planApprovalDate r') (planApprovalDate r)).
  { intros r Hr r' Hr' Hk.
    apply drop_duplicates_newest with (df := sort_values df); auto.
    - apply sort_values_sorted.
    - now apply sort_values_In. }
  split; [apply deduplicate_NoDup|]. split; [|split; [|split]].
  - intros r Hr. split; [now apply deduplicate_In | now apply Hmax].
  - intros r r' t Hr Hr' Hk Ht.
    specialize (Hmax r Hr r' Hr' Hk). rewrite Ht in Hmax.
    destruct (planApprovalDate r) as [t'|]; simpl in Hmax; [|contradiction].
    now exists t'.
  - intros r' Hr'. now apply deduplicate_complete.
  - intros s Hperm Hs. split; [apply drop_duplicates_seen_NoDup|].
    intros r r' Hr Hr' Hk.
    apply drop_duplicates_newest with (df := s); auto.
    + now apply descending_dates_sorted.
    + now apply (Permutation_in _ Hperm).
Qed.


(** ** Rounding *)

Lemma rint_lower (a : Z) (x : Q) : inject_Z a <= x -> (a <= rint x)%Z.
Proof.
  intros H. assert (Hf : (a <= Qfloor x)%Z).
  { rewrite <- (Qfloor_Z a). now apply Qfloor_resp_le. }
  unfold rint. destruct (x - inject_Z (Qfloor x) ?= 1 # 2);
    [destruct (Z.even (Qfloor x))|..]; lia.
Qed.

Lemma rint_upper (b : Z) (x : Q) : x <= inject_Z b -> (rint x <= b)%Z.
Proof.
  intros H. assert (Hf : (Qfloor x <= b)%Z).
  { rewrite <- (Qfloor_Z b). now apply Qfloor_resp_le. }
  destruct (Z.eq_dec (Qfloor x) b) as [E|E].
  - assert (Hlt : x - inject_Z (Qfloor x) < 1 # 2).
    { rewrite E. lra. }
    unfold rint.
    destruct (Qcompare_spec (x - inject_Z (Qfloor x)) (1 # 2)); [lra | lia | lra].
  - unfold rint. destruct (x - inject_Z (Qfloor x) ?= 1 # 2);
      [destruct (Z.even (Qfloor x))|..]; lia.
Qed.


Lemma round2_50 : round2 50 = 50.
Proof. reflexivity. Qed.

(** ** Float arithmetic on finite values *)

Lemma Qeq_bool_false_neq (x y : Q) : Qeq_bool x y = false -> ~ x == y.
Proof. intros H E. apply Qeq_bool_iff in E. congruence. Qed.





(** ** Series statistics *)

Lemma qmin_le_l (a b : Q) : qmin a b <= a.
Proof.
  unfold qmin. destruct (Qle_bool a b) eqn:E; [lra|].
  destruct (Qlt_le_dec a b) as [H|H]; [|exact H].
  apply Qlt_le_weak, Qle_bool_iff in H. congruence.
Qed.

Lemma qmin_le_r (a b : Q) : qmin a b <= b.
Proof.
  unfold qmin. destruct (Qle_bool a b) eqn:E; [|lra].
  now apply Qle_bool_iff.
Qed.

Lemma qmax_ge_l (a b : Q) : a <= qmax a b.
Proof.
  unfold qmax. destruct (Qle_bool a b) eqn:E; [|lra].
  now apply Qle_bool_iff.
Qed.

Lemma qmax_ge_r (a b : Q) : b <= qmax a b.
Proof.
  unfold qmax. destruct (Qle_bool a b) eqn:E; [lra|].
  destruct (Qlt_le_dec a b) as [H|H]; [|exact H].
  apply Qlt_le_weak, Qle_bool_iff in H. congruence.
Qed.

Lemma fold_qmin_le (l : list Q) (a : Q) :
  fold_left qmin l a <= a /\ forall y, In y l -> fold_left qmin l a <= y.
Proof.
  revert a. induction l as [|x l IH]; simpl; intros a; [split; [lra | tauto]|].
  destruct (IH (qmin a x)) as [H1 H2].
  pose proof (qmin_le_l a x). pose proof (qmin_le_r a x).
  split; [lra|]. intros y [<-|Hy]; [lra | auto].
Qed.



Lemma series_stats_empty :
  series_min [] = NaN /\ series_max [] = NaN /\ series_median [] = NaN.
Proof. repeat split. Qed.

(** A series with a single repeated value has that value as least and
    greatest value. *)
Lemma series_constant (l : list Q) (v : Q) :
  l <> [] -> (forall y, In y l -> y = v) ->
  series_min l = Fin v /\ series_max l = Fin v.
Proof.
  destruct l as [|x l]; [congruence|]. intros _ H.
  assert (Hx : x = v) by (apply H; now left). subst x.
  assert (Hl : forall y, In y l -> y = v) by (intros y Hy; apply H; now right).
  clear H. simpl.
  assert (Hmin : fold_left qmin l v = v /\ fold_left qmax l v = v).
  { induction l as [|y l IH]; simpl; [auto|].
    rewrite (Hl y (or_introl eq_refl)).
    assert (E1 : qmin v v = v) by (unfold qmin; now destruct (Qle_bool v v)).
    assert (E2 : qmax v v = v) by (unfold qmax; now destruct (Qle_bool v v)).
    rewrite E1, E2. apply IH. intros z Hz. apply Hl. now right. }
  destruct Hmin as [-> ->]. auto.
Qed.

(** ** The error monad *)

Lemma mapM_pure (A B : Type) (f : A -> result B) (g : A -> B) (l : list A) :
  (forall a, In a l -> f a = Ok (g a)) -> mapM f l = Ok (map g l).
Proof.
  induction l as [|a l IH]; simpl; intros H; [reflexivity|].
  rewrite (H a (or_introl eq_refl)). simpl.
  rewrite IH by (intros b Hb; apply H; now right). reflexivity.
Qed.

(** ** Weighted means *)

Lemma combine_map_map (A B C : Type) (f : A -> B) (h : A -> C) (l : list A) :
  combine (map f l) (map h l) = map (fun a => (f a, h a)) l.
Proof. induction l as [|a l IH]; simpl; [reflexivity | now rewrite IH]. Qed.

Lemma weighted_score_eq (g : list plan_record) :
  weighted_score g =
  if (zsum (populations g) =? 0)%Z then Raise ZeroDivisionError
  else Ok (weighted_mean g).
Proof.
  unfold weighted_score, np_average, weighted_mean, populations.
  now rewrite combine_map_map, map_map.
Qed.

Lemma zsum_populations_pos (g : list plan_record) :
  Forall positive_population g -> g <> [] -> (0 < zsum (populations g))%Z.
Proof.
  intros H. induction H as [|r g Hr Hg IH]; [congruence|]. intros _.
  simpl. destruct g as [|r' g'].
  - simpl. unfold positive_population in Hr. lia.
  - assert (0 < zsum (populations (r' :: g')))%Z by (apply IH; congruence).
    unfold positive_population in Hr. lia.
Qed.

Lemma zsum_populations_nonneg (g : list plan_record) :
  Forall positive_population g -> (0 <= zsum (populations g))%Z.
Proof.
  destruct g as [|r g]; [simpl; lia|]. intros H.
  apply Z.lt_le_incl, zsum_populations_pos; [exact H | congruence].
Qed.



(** ** Groups *)

Section GroupByFacts.

Variable K : Type.
Variable K_eq_dec : forall a b : K, {a = b} + {a <> b}.
Variable K_leb : K -> K -> bool.
Variable key_of : plan_record -> option K.

Lemma present_keys_In (k : K) (df : list plan_record) :
  In k (present_keys key_of df) <-> exists r, In r df /\ key_of r = Some k.
Proof.
  induction df as [|a df IH]; simpl.
  - split; [tauto | intros (r & [] & _)].
  - destruct (key_of a) as [k'|] eqn:E; simpl; rewrite IH; split.
    + intros [->|(r & Hr & Hk)]; [exists a; auto | exists r; auto].
    + intros (r & [<-|Hr] & Hk); [left; congruence | right; exists r; auto].
    + intros (r & Hr & Hk). exists r; auto.
    + intros (r & [<-|Hr] & Hk); [congruence | exists r; auto].
Qed.

Lemma group_keys_In (k : K) (df : list plan_record) :
  In k (group_keys K_eq_dec K_leb key_of df) <->
  exists r, In r df /\ key_of r = Some k.
Proof.
  unfold group_keys. rewrite sort_by_In, nodup_In. apply present_keys_In.
Qed.


Lemma group_of_In (k : K) (df : list plan_record) (r : plan_record) :
  In r (group_of K_eq_dec key_of k df) <-> In r df /\ key_of r = Some k.
Proof.
  unfold group_of, in_group. rewrite filter_In.
  destruct (key_of r) as [k'|]; [destruct (K_eq_dec k' k)|]; split;
    intros [H1 H2]; split; auto; congruence.
Qed.

Lemma group_of_nonempty (k : K) (df : list plan_record) :
  In k (group_keys K_eq_dec K_leb key_of df) <->
  group_of K_eq_dec key_of k df <> [].
Proof.
  rewrite group_keys_In. split.
  - intros (r & Hr & Hk) Hnil.
    assert (H : In r (group_of K_eq_dec key_of k df)) by (apply group_of_In; auto).
    rewrite Hnil in H. destruct H.
  - intros Hne. destruct (group_of K_eq_dec key_of k df) as [|r g] eqn:E;
      [congruence|].
    exists r. apply group_of_In. rewrite E. now left.
Qed.

Lemma group_of_positive (k : K) (df : list plan_record) :
  Forall positive_population df ->
  Forall positive_population (group_of K_eq_dec key_of k df).
Proof.
  rewrite !Forall_forall. intros H r Hr. apply H.
  now apply group_of_In in Hr.
Qed.

End GroupByFacts.

(** ** Aggregates in closed form *)

Lemma weighted_score_group (K : Type) (K_eq_dec : forall a b : K, {a = b} + {a <> b})
  (K_leb : K -> K -> bool) (key_of : plan_record -> option K)
  (latest : list plan_record) (k : K) :
  Forall positive_population latest ->
  In k (group_keys K_eq_dec K_leb key_of latest) ->
  weighted_score (group_of K_eq_dec key_of k latest)
  = Ok (weighted_mean (group_of K_eq_dec key_of k latest)).
Proof.
  intros Hp Hk. apply group_of_nonempty in Hk.
  rewrite weighted_score_eq.
  pose proof (zsum_populations_pos (group_of_positive K_eq_dec key_of k Hp) Hk).
  destruct (Z.eqb_spec (zsum (populations (group_of K_eq_dec key_of k latest))) 0);
    [lia | reflexivity].
Qed.

(** With positive populations the county aggregation raises nothing and
    yields one row per group, in the order of the keys. *)
Lemma county_group_of_closed (latest : list plan_record) :
  Forall positive_population latest ->
  county_group_of latest
  = Ok (map (county_row_of latest)
            (group_keys county_key_eq_dec county_key_leb county_key_of latest)).
Proof.
  intros Hp. apply mapM_pure. intros k Hk.
  cbv beta zeta. rewrite (@weighted_score_group _ _ _ _ _ _ Hp Hk). reflexivity.
Qed.

Lemma state_group_of_closed (latest : list plan_record) :
  Forall positive_population latest ->
  state_group_of latest
  = Ok (map (state_row_of latest)
            (group_keys string_dec String.leb state_key_of latest)).
Proof.
  intros Hp. apply mapM_pure. intros k Hk.
  cbv beta zeta. rewrite (@weighted_score_group _ _ _ _ _ _ Hp Hk). reflexivity.
Qed.

(** ** Index lookups *)

Section IndexFacts.

Variables K R : Type.
Variable K_eq_dec : forall a b : K, {a = b} + {a <> b}.

Lemma contains_first_under (idx : index K R) (k : K) :
  contains K_eq_dec idx k = true <-> exists r, first_under K_eq_dec k idx = Some r.
Proof.
  unfold contains, first_under, rows_under.
  induction idx as [|e idx IH]; simpl.
  - split; [discriminate | intros (r & H); discriminate].
  - destruct (has_key K_eq_dec k e); simpl; [|exact IH].
    split; [eauto | reflexivity].
Qed.

Lemma contains_false_first_under (idx : index K R) (k : K) :
  contains K_eq_dec idx k = false <-> first_under K_eq_dec k idx = None.
Proof.
  pose proof (contains_first_under idx k) as H.
  destruct (contains K_eq_dec idx k), (first_under K_eq_dec k idx) as [r|];
    split; intros E; try reflexivity; try discriminate.
  - destruct (proj1 H eq_refl). discriminate.
  - assert (false = true) by (apply H; eauto). discriminate.
Qed.

(** [.loc] followed by [.iloc[0]] on a frame hands back the first row
    stored under the key, whether or not the index is unique. *)
Lemma loc_first_row (idx : index K R) (k : K) (r : R) :
  first_under K_eq_dec k idx = Some r ->
  (sel <- loc K_eq_dec idx k ;; first_row sel) = Ok r.
Proof.
  unfold first_under, loc. intros H.
  destruct (rows_under K_eq_dec k idx) as [|r0 [|r1 rest]]; simpl in H;
    [discriminate| |]; injection H as ->.
  - now destruct (is_unique K_eq_dec idx).
  - reflexivity.
Qed.

Lemma first_under_In (idx : index K R) (k : K) (r : R) :
  first_under K_eq_dec k idx = Some r -> In (k, r) idx.
Proof.
  unfold first_under, rows_under.
  induction idx as [|[k' r'] idx IH]; simpl; [discriminate|].
  unfold has_key at 1. simpl.
  destruct (K_eq_dec k' k) as [->|Hne]; simpl.
  - intros [= ->]. now left.
  - intros H. right. now apply IH.
Qed.

End IndexFacts.

(** ** The levels of the resolver *)

Lemma town_level_hit (S Pn : string) (ti : index place_key plan_record) (row : plan_record) :
  first_under place_key_eq_dec (Some S, Some Pn) ti = Some row ->
  town_level S Pn ti = Ok (Some (town_answer row)).
Proof.
  intros H. unfold town_level.
  assert (Hc : contains place_key_eq_dec ti (Some S, Some Pn) = true)
    by (apply contains_first_under; eauto).
  rewrite Hc.
  pose proof (loc_first_row _ _ _ H) as Hl. unfold bind in *.
  destruct (loc place_key_eq_dec ti (Some S, Some Pn)) as [sel|e]; [|discriminate].
  now rewrite Hl.
Qed.

Lemma town_level_miss (S Pn : string) (ti : index place_key plan_record) :
  first_under place_key_eq_dec (Some S, Some Pn) ti = None ->
  town_level S Pn ti = Ok None.
Proof.
  intros H. unfold town_level.
  apply contains_false_first_under in H. now rewrite H.
Qed.

Lemma county_level_hit (S C : string) (ci : index county_key county_row) (crow : county_row) :
  first_under county_key_eq_dec (S, C) ci = Some crow ->
  county_level S C ci = Ok (Some (county_answer C crow)).
Proof.
  intros H. unfold county_level.
  assert (Hc : contains county_key_eq_dec ci (S, C) = true)
    by (apply contains_first_under; eauto).
  rewrite Hc.
  pose proof (loc_first_row _ _ _ H) as Hl. unfold bind in *.
  destruct (loc county_key_eq_dec ci (S, C)) as [sel|e]; [|discriminate].
  now rewrite Hl.
Qed.

Lemma county_level_miss (S C : string) (ci : index county_key county_row) :
  first_under county_key_eq_dec (S, C) ci = None ->
  county_level S C ci = Ok None.
Proof.
  intros H. unfold county_level.
  apply contains_false_first_under in H. now rewrite H.
Qed.

Lemma state_level_hit (S : string) (si : index string state_row) (srow : state_row) :
  first_under string_dec S si = Some srow ->
  state_level S si = Ok (Some (state_answer S srow)).
Proof.
  intros H. unfold state_level.
  assert (Hc : contains string_dec si S = true)
    by (apply contains_first_under; eauto).
  rewrite Hc.
  pose proof (loc_first_row _ _ _ H) as Hl. unfold bind in *.
  destruct (loc string_dec si S) as [sel|e]; [|discriminate].
  now rewrite Hl.
Qed.

Lemma state_level_miss (S : string) (si : index string state_row) :
  first_under string_dec S si = None ->
  state_level S si = Ok None.
Proof.
  intros H. unfold state_level.
  apply contains_false_first_under in H. now rewrite H.
Qed.

(** The resolver, case by case on the first rows stored under the three
    normalised keys. *)
Lemma get_best_score_with_meta_cases
  (s c p : option string)
  (ti : index place_key plan_record) (ci : index county_key county_row)
  (si : index string state_row) (mn mx md : flt) :
  get_best_score_with_meta s c p ti ci si mn mx md =
  match first_under place_key_eq_dec (town_query s p) ti with
  | Some row => town_answer row
  | None =>
      match first_under county_key_eq_dec (county_query s c) ci with
      | Some crow => county_answer (query_county c) crow
      | None =>
          match first_under string_dec (query_state s) si with
          | Some srow => state_answer (query_state s) srow
          | None => fallback_answer mn mx md
          end
      end
  end.
Proof.
  unfold get_best_score_with_meta, town_query, county_query.
  fold (query_state s) (query_county c) (query_place p).
  destruct (first_under place_key_eq_dec _ ti) as [row|] eqn:Et.
  { now rewrite (town_level_hit _ _ _ Et). }
  rewrite (town_level_miss _ _ _ Et). simpl.
  destruct (first_under county_key_eq_dec _ ci) as [crow|] eqn:Ec.
  { now rewrite (county_level_hit _ _ _ Ec). }
  rewrite (county_level_miss _ _ _ Ec). simpl.
  destruct (first_under string_dec _ si) as [srow|] eqn:Es.
  { now rewrite (state_level_hit _ _ Es). }
  now rewrite (state_level_miss _ _ Es).
Qed.

(** ** The town index keeps the order of [latest] under each key *)

Lemma opt_compare_refl (a : option string) : opt_compare a a = Eq.
Proof.
  destruct a as [x|]; simpl; [|reflexivity].
  pose proof (String.compare_antisym x x) as H.
  destruct (String.compare x x); simpl in H; congruence.
Qed.

Lemma place_key_leb_refl (k : place_key) : place_key_leb k k = true.
Proof. unfold place_key_leb. now rewrite !opt_compare_refl. Qed.

Lemma rows_under_build_town_index (k : place_key) (latest : list plan_record) :
  rows_under place_key_eq_dec k (build_town_index latest)
  = filter (fun r => if place_key_eq_dec (town_key_of r) k then true else false) latest.
Proof.
  unfold rows_under, build_town_index.
  rewrite filter_sort_by.
  - induction latest as [|r l IH]; [reflexivity|].
    cbn [map filter]. unfold has_key at 1. cbn [fst].
    destruct (place_key_eq_dec (town_key_of r) k); cbn [map snd]; now rewrite IH.
  - intros [k1 r1] [k2 r2]. unfold has_key. simpl.
    destruct (place_key_eq_dec k1 k), (place_key_eq_dec k2 k);
      try discriminate. subst. intros _ _. apply place_key_leb_refl.
Qed.



(** ** [initialize_dataset], step by step *)

Lemma clean_population_pos (c : num_cell) : (0 < clean_population c)%Z.
Proof.
  unfold clean_population.
  destruct (Z.leb_spec (fillna 0%Z (to_numeric c)) 0); lia.
Qed.


(** Every cleaned row comes from a row of the file. *)
Lemma cleaned_rows_origin (df : list csv_row) (r : plan_row) :
  In r (cleaned_rows df) ->
  exists raw, In raw df /\
    stateAbbreviation r = stateAbbreviation raw /\
    countyName r = countyName raw /\
    placeName r = placeName raw /\
    planApprovalDate r = to_datetime (planApprovalDate raw) /\
    population r = clean_population (population raw).
Proof.
  unfold cleaned_rows. rewrite in_map_iff. intros (d & <- & Hd).
  apply deduplicate_In in Hd. rewrite in_map_iff in Hd.
  destruct Hd as (raw & <- & Hraw). exists raw. repeat split; auto.
Qed.


Section InitializeFacts.

Variable log1p : Z -> Q.

Lemma scored_rows_In (df : list csv_row) (r : plan_record) :
  In r (scored_rows log1p df) <->
  exists r0, In r0 (cleaned_rows df) /\
    r = score_row log1p
          (series_min (log_column log1p (cleaned_rows df)))
          (series_max (log_column log1p (cleaned_rows df)))
          (log_column log1p (cleaned_rows df)) r0.
Proof.
  unfold scored_rows. rewrite in_map_iff.
  split; intros (r0 & H1 & H2); exists r0; split; auto; congruence.
Qed.

Lemma scored_rows_positive (df : list csv_row) :
  Forall positive_population (scored_rows log1p df).
Proof.
  rewrite Forall_forall. intros r Hr.
  apply scored_rows_In in Hr. destruct Hr as (r0 & Hr0 & ->).
  apply cleaned_rows_origin in Hr0. destruct Hr0 as (raw & _ & _ & _ & _ & _ & Hp).
  unfold positive_population. simpl. rewrite Hp. apply clean_population_pos.
Qed.

(** [initialize_dataset] raises nothing, and its result in closed form. *)
Lemma initialize_dataset_closed (df : list csv_row) :
  initialize_dataset log1p df =
  let logs := log_column log1p (cleaned_rows df) in
  let latest := scored_rows log1p df in
  Ok (mkSnapshot latest
        (build_town_index latest)
        (build_county_index
           (map (county_row_of latest)
                (group_keys county_key_eq_dec county_key_leb county_key_of latest)))
        (build_state_index
           (map (state_row_of latest)
                (group_keys string_dec String.leb state_key_of latest)))
        (series_min logs) (series_max logs) (series_median logs)).
Proof.
  unfold initialize_dataset.
  fold (deduplicate (map convert_date df)). fold (cleaned_rows df).
  fold (scored_rows log1p df).
  rewrite (county_group_of_closed (scored_rows_positive df)).
  rewrite (state_group_of_closed (scored_rows_positive df)).
  reflexivity.
Qed.

Lemma initialize_dataset_latest (df : list csv_row) (snap : snapshot) :
  initialize_dataset log1p df = Ok snap -> latest snap = scored_rows log1p df.
Proof. rewrite initialize_dataset_closed. now intros [= <-]. Qed.


(** With a single population value every score is 50. *)
Lemma scored_rows_constant (df : list csv_row) :
  (forall r1 r2, In r1 (scored_rows log1p df) -> In r2 (scored_rows log1p df) ->
                 population (plan r1) = population (plan r2)) ->
  forall r, In r (scored_rows log1p df) -> score_log_linear r = Fin 50.
Proof.
  intros Hsame r Hr.
  pose proof Hr as Hr'. apply scored_rows_In in Hr'.
  destruct Hr' as (r0 & Hr0 & Er). rewrite Er. simpl.
  set (logs := log_column log1p (cleaned_rows df)).
  assert (Hin : In (log1p (population r0)) logs)
    by (apply in_map_iff; exists r0; auto).
  assert (Hne : logs <> []) by (intros E; rewrite E in Hin; destruct Hin).
  assert (Hconst : forall y, In y logs -> y = log1p (population r0)).
  { intros y Hy. apply in_map_iff in Hy. destruct Hy as (r1 & <- & Hr1).
    f_equal.
    assert (H1 : In (score_row log1p (series_min logs) (series_max logs) logs r1)
                    (scored_rows log1p df))
      by (apply scored_rows_In; exists r1; auto).
    specialize (Hsame _ _ H1 Hr). rewrite Er in Hsame. exact Hsame. }
  destruct (series_constant Hne Hconst) as [-> ->].
  unfold linear_score. simpl. now rewrite Qeq_bool_refl.
Qed.

End InitializeFacts.

(** ** Scores returned by the resolver on a built snapshot *)


Section ResolveFacts.

Variable log1p : Z -> Q.



End ResolveFacts.

(* ================================================================== *)
(** * The remaining claims *)





(** C6.  If all the rows of [latest] have the same population, then
    log_max == log_min and the score_log_linear of every row is exactly 50. *)
Theorem single_population_scores_50 (log1p : Z -> Q) (df : list csv_row) (snap : snapshot) :
  initialize_dataset log1p df = Ok snap ->
  (forall r1 r2, In r1 (latest snap) -> In r2 (latest snap) ->
                 population (plan r1) = population (plan r2)) ->
  (latest snap <> [] -> feqb (log_max snap) (log_min snap) = true) /\
  (forall r, In r (latest snap) -> score_log_linear r = Fin 50).
Proof.
  intros Hinit Hsame.
  pose proof (initialize_dataset_latest _ _ Hinit) as Hl. rewrite Hl in *.
  split; [|now apply scored_rows_constant].
  intros Hne.
  rewrite initialize_dataset_closed in Hinit. cbv zeta in Hinit.
  injection Hinit as <-. cbn [log_max log_min].
  destruct (cleaned_rows df) as [|r0 rows] eqn:Erows.
  { exfalso. apply Hne. unfold scored_rows. now rewrite Erows. }
  rewrite <- Erows in *.
  set (logs := log_column log1p (cleaned_rows df)).
  assert (Hlogs : logs <> []) by (subst logs; rewrite Erows; discriminate).
  assert (Hconst : forall y, In y logs -> y = log1p (population r0)).
  { intros y Hy. apply in_map_iff in Hy. destruct Hy as (r1 & <- & Hr1). f_equal.
    assert (H0 : In r0 (cleaned_rows df)) by (rewrite Erows; now left).
    exact (Hsame _ _ (proj2 (scored_rows_In log1p df _) (ex_intro _ r1 (conj Hr1 eq_refl)))
                     (proj2 (scored_rows_In log1p df _) (ex_intro _ r0 (conj H0 eq_refl)))). }
  destruct (series_constant Hlogs Hconst) as [-> ->].
  simpl. apply Qeq_bool_refl.
Qed.

Lemma single_population_scores_50_witness :
  initialize_dataset log1p_floor same_population_table
    = Ok (built log1p_floor same_population_table) /\
  map (fun r => population (plan r)) (latest (built log1p_floor same_population_table))
    = [1000%Z; 1000%Z] /\
  map score_log_linear (latest (built log1p_floor same_population_table))
    = [Fin 50; Fin 50].
Proof.
  assert (H : initialize_dataset log1p_floor same_population_table
              = Ok (built log1p_floor same_population_table))
    by (vm_compute; reflexivity).
  assert (Hp : map (fun r => population (plan r))
                   (latest (built log1p_floor same_population_table))
               = [1000%Z; 1000%Z])
    by (vm_compute; reflexivity).
  split; [exact H|]. split; [exact Hp|].
  assert (Hsame : forall r1 r2,
             In r1 (latest (built log1p_floor same_population_table)) ->
             In r2 (latest (built log1p_floor same_population_table)) ->
             population (plan r1) = population (plan r2)).
  { assert (Hall : forall r, In r (latest (built log1p_floor same_population_table)) ->
                             population (plan r) = 1000%Z).
    { intros r Hr. apply (in_map (fun r => population (plan r))) in Hr.
      rewrite Hp in Hr. simpl in Hr. destruct Hr as [<-|[<-|[]]]; reflexivity. }
    intros r1 r2 H1 H2. now rewrite (Hall r1 H1), (Hall r2 H2). }
  destruct (single_population_scores_50 _ _ H Hsame) as [_ H50].
  destruct (latest (built log1p_floor same_population_table)) as [|a [|b [|? ?]]];
    try discriminate.
  simpl. rewrite (H50 a), (H50 b); simpl; auto.
Defined.






(** C8, as the code has it.  On a table without rows initialization raises
    nothing: it returns the snapshot with three empty indexes and NaN for
    log_min, log_max and log_median, on which the resolver answers every
    query at level global_fallback with the score NaN. *)
Theorem empty_table_is_accepted (log1p : Z -> Q) :
  initialize_dataset log1p [] = Ok empty_snapshot /\
  log_min empty_snapshot = NaN /\
  log_max empty_snapshot = NaN /\
  log_median empty_snapshot = NaN /\
  forall s c p,
    resolve empty_snapshot s c p
    = (NaN, Level.global_fallback, FallbackDetails no_match_note).
Proof. repeat split. Qed.

(** C8 fails: initialization of the table without rows is not an error. *)
Lemma empty_table_does_not_raise :
  initialize_dataset log1p_floor [] = Ok empty_snapshot /\
  ~ exists e, initialize_dataset log1p_floor [] = Raise e.
Proof.
  split; [reflexivity|]. intros (e & H). discriminate.
Qed.


(** ** The walk through the levels on the table of two Californian towns *)

Example levels_on_california_table :
  let snap := built log1p_floor california_table in
  level_of (resolve snap (given "CA") (given "LA County") (given "Los Angeles"))
    = Level.town /\
  level_of (resolve snap (given "CA") (given "LA County") (given "Burbank"))
    = Level.county /\
  level_of (resolve snap (given "CA") (given "Unknown County") (given "Unknown Place"))
    = Level.state /\
  level_of (resolve snap (given "ZZ") (given "X") (given "Y"))
    = Level.global_fallback /\
  score_of (resolve snap (given " ca ") (given "la county") (given "LOS ANGELES "))
    = Fin 100.
Proof. vm_compute. repeat split. Qed.


(* ================================================================== *)
(** * Further properties of the text normalisation *)

Lemma upper_char_idem (c : ascii) : Text.upper_char (Text.upper_char c) = Text.upper_char c.
Proof. destruct c as [[] [] [] [] [] [] [] []]; reflexivity. Qed.

Lemma lower_char_idem (c : ascii) : Text.lower_char (Text.lower_char c) = Text.lower_char c.
Proof. destruct c as [[] [] [] [] [] [] [] []]; reflexivity. Qed.

Lemma upper_lower_char (c : ascii) : Text.upper_char (Text.lower_char c) = Text.upper_char c.
Proof. destruct c as [[] [] [] [] [] [] [] []]; reflexivity. Qed.

Lemma lower_upper_char (c : ascii) : Text.lower_char (Text.upper_char c) = Text.lower_char c.
Proof. destruct c as [[] [] [] [] [] [] [] []]; reflexivity. Qed.

Lemma isspace_upper_char (c : ascii) : Text.isspace (Text.upper_char c) = Text.isspace c.
Proof. destruct c as [[] [] [] [] [] [] [] []]; reflexivity. Qed.

Lemma isspace_lower_char (c : ascii) : Text.isspace (Text.lower_char c) = Text.isspace c.
Proof. destruct c as [[] [] [] [] [] [] [] []]; reflexivity. Qed.

Lemma map_string_map_string (f g : ascii -> ascii) (s : string) :
  Text.map_string f (Text.map_string g s) = Text.map_string (fun c => f (g c)) s.
Proof. induction s as [|c s IH]; simpl; [reflexivity | now rewrite IH]. Qed.

Lemma map_string_ext (f g : ascii -> ascii) (s : string) :
  (forall c, f c = g c) -> Text.map_string f s = Text.map_string g s.
Proof. intros H. induction s as [|c s IH]; simpl; [reflexivity | now rewrite H, IH]. Qed.

Lemma map_string_length (f : ascii -> ascii) (s : string) :
  String.length (Text.map_string f s) = String.length s.
Proof. induction s as [|c s IH]; simpl; [reflexivity | now rewrite IH]. Qed.

Lemma upper_upper (s : string) : Text.upper (Text.upper s) = Text.upper s.
Proof.
  unfold Text.upper. rewrite map_string_map_string.
  apply map_string_ext, upper_char_idem.
Qed.

Lemma lower_lower (s : string) : Text.lower (Text.lower s) = Text.lower s.
Proof.
  unfold Text.lower. rewrite map_string_map_string.
  apply map_string_ext, lower_char_idem.
Qed.

Lemma upper_lower (s : string) : Text.upper (Text.lower s) = Text.upper s.
Proof.
  unfold Text.upper, Text.lower. rewrite map_string_map_string.
  apply map_string_ext, upper_lower_char.
Qed.

Lemma lower_upper (s : string) : Text.lower (Text.upper s) = Text.lower s.
Proof.
  unfold Text.upper, Text.lower. rewrite map_string_map_string.
  apply map_string_ext, lower_upper_char.
Qed.

Section StripFacts.

(** A change of letters that keeps whitespace apart from the rest. *)
Variable f : ascii -> ascii.
Hypothesis f_space : forall c, Text.isspace (f c) = Text.isspace c.

Lemma lstrip_map_string (s : string) :
  Text.lstrip (Text.map_string f s) = Text.map_string f (Text.lstrip s).
Proof.
  induction s as [|c s IH]; simpl; [reflexivity|].
  rewrite f_space. now destruct (Text.isspace c).
Qed.

Lemma rstrip_map_string (s : string) :
  Text.rstrip (Text.map_string f s) = Text.map_string f (Text.rstrip s).
Proof.
  induction s as [|c s IH]; simpl; [reflexivity|].
  rewrite IH, f_space.
  destruct (Text.rstrip s); simpl; [now destruct (Text.isspace c) | reflexivity].
Qed.

Lemma strip_map_string (s : string) :
  Text.strip (Text.map_string f s) = Text.map_string f (Text.strip s).
Proof. unfold Text.strip. now rewrite lstrip_map_string, rstrip_map_string. Qed.

End StripFacts.

Lemma strip_upper (s : string) : Text.strip (Text.upper s) = Text.upper (Text.strip s).
Proof. apply strip_map_string, isspace_upper_char. Qed.

Lemma strip_lower (s : string) : Text.strip (Text.lower s) = Text.lower (Text.strip s).
Proof. apply strip_map_string, isspace_lower_char. Qed.

Lemma head_is_space_lstrip (s : string) : head_is_space (Text.lstrip s) = false.
Proof.
  induction s as [|c s IH]; simpl; [reflexivity|].
  destruct (Text.isspace c) eqn:E; [exact IH | simpl; exact E].
Qed.

Lemma lstrip_unpadded (s : string) : head_is_space s = false -> Text.lstrip s = s.
Proof. destruct s as [|c s]; simpl; [reflexivity | now intros ->]. Qed.

Lemma head_is_space_rstrip (s : string) :
  head_is_space s = false -> head_is_space (Text.rstrip s) = false.
Proof.
  destruct s as [|c s]; simpl; [reflexivity|]. intros E.
  destruct (Text.rstrip s); simpl; [rewrite E; simpl; exact E | exact E].
Qed.

Lemma rstrip_rstrip (s : string) : Text.rstrip (Text.rstrip s) = Text.rstrip s.
Proof.
  induction s as [|c s IH]; simpl; [reflexivity|].
  destruct (Text.rstrip s) as [|d r] eqn:E.
  - destruct (Text.isspace c) eqn:Ec; simpl; [reflexivity | now rewrite Ec].
  - simpl in *. now rewrite IH.
Qed.

Lemma last_is_space_rstrip (s : string) : last_is_space (Text.rstrip s) = false.
Proof.
  induction s as [|c s IH]; simpl; [reflexivity|].
  destruct (Text.rstrip s) as [|d r] eqn:E.
  - destruct (Text.isspace c) eqn:Ec; simpl; [reflexivity | exact Ec].
  - exact IH.
Qed.

Lemma strip_strip (s : string) : Text.strip (Text.strip s) = Text.strip s.
Proof.
  unfold Text.strip.
  rewrite (lstrip_unpadded (Text.rstrip (Text.lstrip s))).
  - apply rstrip_rstrip.
  - apply head_is_space_rstrip, head_is_space_lstrip.
Qed.

Lemma lstrip_length (s : string) :
  (String.length (Text.lstrip s) <= String.length s)%nat /\
  (String.length (Text.lstrip s) = String.length s -> Text.lstrip s = s).
Proof.
  induction s as [|c s [IH1 IH2]]; simpl; [auto|].
  destruct (Text.isspace c); simpl; split; auto; lia.
Qed.

Lemma rstrip_length (s : string) :
  (String.length (Text.rstrip s) <= String.length s)%nat /\
  (String.length (Text.rstrip s) = String.length s -> Text.rstrip s = s).
Proof.
  induction s as [|c s [IH1 IH2]]; simpl; [auto|].
  destruct (Text.rstrip s) as [|d r] eqn:E.
  - destruct (Text.isspace c); simpl in *; split; try lia.
    intros H. destruct s; [reflexivity | simpl in H; lia].
  - simpl in *. split; [lia|]. intros H. f_equal. apply IH2. lia.
Qed.

Lemma strip_length (s : string) :
  String.length (Text.strip s) = String.length s -> Text.strip s = s.
Proof.
  unfold Text.strip. intros H.
  destruct (lstrip_length s) as [L1 L2].
  destruct (rstrip_length (Text.lstrip s)) as [R1 R2].
  assert (E : Text.lstrip s = s) by (apply L2; lia).
  rewrite E in *. apply R2. exact H.
Qed.

Lemma norm_strip (s : option string) : Text.strip (_norm s) = _norm s.
Proof. destruct s as [v|]; simpl; [apply strip_strip | reflexivity]. Qed.

Lemma query_state_idem (s : option string) :
  query_state (Some (query_state s)) = query_state s.
Proof.
  unfold query_state. cbn [_norm].
  now rewrite strip_upper, norm_strip, upper_upper.
Qed.

Lemma query_county_idem (c : option string) :
  query_county (Some (query_county c)) = query_county c.
Proof.
  unfold query_county. cbn [_norm].
  now rewrite strip_lower, norm_strip, lower_lower.
Qed.

Lemma query_place_idem (p : option string) :
  query_place (Some (query_place p)) = query_place p.
Proof.
  unfold query_place. cbn [_norm].
  now rewrite strip_lower, norm_strip, lower_lower.
Qed.

(** X1.  The resolver reads its three texts up to letter case and
    surrounding whitespace: the answer is the same when an argument is put in
    upper or lower case, when it is stripped, and when the arguments are
    normalised before the call, as [get_zip_coverage_score] does with the
    state and the county. *)
Theorem resolver_reads_text_up_to_case_and_padding
  (s c p : string)
  (ti : index place_key plan_record) (ci : index county_key county_row)
  (si : index string state_row) (mn mx md : flt) :
  let ask s' c' p' :=
    get_best_score_with_meta (Some s') (Some c') (Some p') ti ci si mn mx md in
  ask (Text.upper s) (Text.upper c) (Text.upper p) = ask s c p /\
  ask (Text.lower s) (Text.lower c) (Text.lower p) = ask s c p /\
  ask (Text.strip s) (Text.strip c) (Text.strip p) = ask s c p /\
  ask (Text.upper (_norm (Some s))) (Text.lower (_norm (Some c))) p = ask s c p.
Proof.
  intros ask. subst ask. cbv beta.
  rewrite !get_best_score_with_meta_cases.
  unfold town_query, county_query, query_state, query_county, query_place.
  cbn [_norm].
  repeat split.
  - now rewrite !strip_upper, upper_upper, !lower_upper.
  - now rewrite !strip_lower, upper_lower, !lower_lower.
  - now rewrite !strip_strip.
  - now rewrite strip_upper, strip_lower, !strip_strip, upper_upper, lower_lower.
Qed.

(** X2.  [_norm] returns a text that neither starts nor ends with
    whitespace, the empty text for a missing value, and leaves a text
    without such padding as it is. *)
Theorem norm_is_unpadded (s : option string) :
  head_is_space (_norm s) = false /\
  last_is_space (_norm s) = false /\
  _norm (Some (_norm s)) = _norm s /\
  _norm None = EmptyString /\
  (forall v, head_is_space v = false -> last_is_space v = false ->
             _norm (Some v) = v).
Proof.
  split; [|split; [|split; [|split]]].
  - destruct s as [v|]; simpl; [|reflexivity].
    apply head_is_space_rstrip, head_is_space_lstrip.
  - destruct s as [v|]; simpl; [|reflexivity]. apply last_is_space_rstrip.
  - simpl. apply norm_strip.
  - reflexivity.
  - intros v Hh Hl. simpl. unfold Text.strip. rewrite (lstrip_unpadded _ Hh).
    clear Hh. induction v as [|c v IH]; simpl; [reflexivity|].
    destruct v as [|d v'].
    + simpl in *. now rewrite Hl.
    + rewrite IH by exact Hl. reflexivity.
Qed.

(* ================================================================== *)
(** * Further properties of the indexes and of the resolver *)

Lemma unpadded_transfer (f : ascii -> ascii) (a b : string) :
  (forall c, Text.isspace (f c) = Text.isspace c) ->
  Text.map_string f a = Text.map_string f b ->
  Text.strip b = b -> Text.strip a = a.
Proof.
  intros Hf Hab Hb. apply strip_length.
  rewrite <- (map_string_length f (Text.strip a)).
  rewrite <- (strip_map_string f Hf a), Hab, (strip_map_string f Hf b), Hb.
  rewrite <- Hab. apply map_string_length.
Qed.

Section IndexKeyFacts.

Variables K R : Type.
Variable K_eq_dec : forall a b : K, {a = b} + {a <> b}.

Lemma first_under_of_In (idx : index K R) (k : K) (r : R) :
  In (k, r) idx -> exists r', first_under K_eq_dec k idx = Some r'.
Proof.
  intros H. apply contains_first_under.
  unfold contains. apply existsb_exists. exists (k, r). split; [exact H|].
  unfold has_key. simpl. now destruct (K_eq_dec k k).
Qed.

Lemma first_under_None (idx : index K R) (k : K) :
  first_under K_eq_dec k idx = None <-> forall r, ~ In (k, r) idx.
Proof.
  split.
  - intros H r Hin. destruct (first_under_of_In _ _ _ Hin) as (r' & E). congruence.
  - intros H. destruct (first_under K_eq_dec k idx) as [r|] eqn:E; [|reflexivity].
    apply first_under_In in E. now apply H in E.
Qed.

End IndexKeyFacts.

Lemma build_town_index_In (latest : list plan_record) (k : place_key) (r : plan_record) :
  In (k, r) (build_town_index latest) <-> In r latest /\ k = town_key_of r.
Proof.
  unfold build_town_index. rewrite sort_by_In, in_map_iff. split.
  - intros (r0 & E & Hr0). injection E as <- <-. auto.
  - intros [Hr ->]. exists r. auto.
Qed.

Lemma build_county_index_In (cg : list county_row) (k : county_key) (g : county_row) :
  In (k, g) (build_county_index cg) <->
  In g cg /\ k = (Text.upper (county_stateAbbreviation g), Text.lower (county_countyName g)).
Proof.
  unfold build_county_index. rewrite in_map_iff. split.
  - intros (g0 & E & Hg0). injection E as <- <-. auto.
  - intros [Hg ->]. exists g. auto.
Qed.

Lemma build_state_index_In (sg : list state_row) (k : string) (g : state_row) :
  In (k, g) (build_state_index sg) <->
  In g sg /\ k = Text.upper (state_stateAbbreviation g).
Proof.
  unfold build_state_index. rewrite in_map_iff. split.
  - intros (g0 & E & Hg0). injection E as <- <-. auto.
  - intros [Hg ->]. exists g. auto.
Qed.

(** The town index holds the rows of [latest], each once, under its own key. *)
Lemma build_town_index_perm (latest : list plan_record) :
  Permutation (map snd (build_town_index latest)) latest.
Proof.
  unfold build_town_index.
  eapply perm_trans; [apply Permutation_map, sort_by_perm|].
  rewrite map_map. simpl. rewrite map_id. apply Permutation_refl.
Qed.

Section SnapshotFacts.

Variable log1p : Z -> Q.

Lemma snapshot_town_index (df : list csv_row) (snap : snapshot) :
  initialize_dataset log1p df = Ok snap ->
  town_index snap = build_town_index (latest snap).
Proof. rewrite initialize_dataset_closed. now intros [= <-]. Qed.

Lemma snapshot_county_index (df : list csv_row) (snap : snapshot) :
  initialize_dataset log1p df = Ok snap ->
  county_index snap
  = build_county_index
      (map (county_row_of (latest snap))
           (group_keys county_key_eq_dec county_key_leb county_key_of (latest snap))).
Proof. rewrite initialize_dataset_closed. now intros [= <-]. Qed.

Lemma snapshot_state_index (df : list csv_row) (snap : snapshot) :
  initialize_dataset log1p df = Ok snap ->
  state_index snap
  = build_state_index
      (map (state_row_of (latest snap))
           (group_keys string_dec String.leb state_key_of (latest snap))).
Proof. rewrite initialize_dataset_closed. now intros [= <-]. Qed.

(** The keys of the state index are the upper-cased states of [latest]. *)
Lemma snapshot_state_key (df : list csv_row) (snap : snapshot) (S : string) :
  initialize_dataset log1p df = Ok snap ->
  ((exists g, In (S, g) (state_index snap)) <->
   exists r st, In r (latest snap) /\ stateAbbreviation (plan r) = Some st /\
                Text.upper st = S).
Proof.
  intros Hinit. rewrite (snapshot_state_index _ Hinit). split.
  - intros (g & Hg). apply build_state_index_In in Hg. destruct Hg as [Hg ->].
    apply in_map_iff in Hg. destruct Hg as (k & <- & Hk).
    apply group_keys_In in Hk. destruct Hk as (r & Hr & Hkey).
    exists r, k. auto.
  - intros (r & st & Hr & Hst & <-).
    exists (state_row_of (latest snap) st). apply build_state_index_In.
    split; [|reflexivity]. apply in_map. apply group_keys_In. exists r. auto.
Qed.

End SnapshotFacts.

(** X3.  Whenever the resolver answers at level town on a built snapshot,
    the answer is that of a row of [latest] whose state and place equal the
    normalised query up to letter case and carry no leading or trailing
    whitespace.  A row whose state or place is padded with whitespace is
    thus never returned at level town. *)
Theorem town_answer_is_an_unpadded_row
  (log1p : Z -> Q) (df : list csv_row) (snap : snapshot) (s c p : option string) :
  initialize_dataset log1p df = Ok snap ->
  level_of (resolve snap s c p) = Level.town ->
  exists row st pl,
    In row (latest snap) /\
    resolve snap s c p
      = (score_log_linear row, Level.town,
         TownDetails (Some pl) (population (plan row)) (score_log_linear row)) /\
    stateAbbreviation (plan row) = Some st /\ placeName (plan row) = Some pl /\
    Text.upper st = query_state s /\ Text.lower pl = query_place p /\
    Text.strip st = st /\ Text.strip pl = pl.
Proof.
  intros Hinit Hlevel. unfold resolve in *.
  rewrite get_best_score_with_meta_cases in *.
  destruct (first_under place_key_eq_dec _ _) as [row|] eqn:Et.
  2:{ destruct (first_under county_key_eq_dec _ _);
        [discriminate|destruct (first_under string_dec _ _); discriminate]. }
  apply first_under_In in Et. rewrite (snapshot_town_index _ _ Hinit) in Et.
  apply build_town_index_In in Et. destruct Et as [Hrow Hkey].
  unfold town_query, town_key_of in Hkey. injection Hkey as Hs Hp.
  destruct (stateAbbreviation (plan row)) as [st|] eqn:Est; [|discriminate].
  destruct (placeName (plan row)) as [pl|] eqn:Epl; [|discriminate].
  simpl in Hs, Hp. injection Hs as Hs. injection Hp as Hp.
  exists row, st, pl. split; [exact Hrow|]. split.
  { unfold town_answer. now rewrite Epl. }
  split; [exact Est|]. split; [exact Epl|]. split; [auto|]. split; [auto|]. split.
  - apply (@unpadded_transfer Text.upper_char st (_norm s) isspace_upper_char).
    + symmetry. exact Hs.
    + apply norm_strip.
  - apply (@unpadded_transfer Text.lower_char pl (_norm p) isspace_lower_char).
    + symmetry. exact Hp.
    + apply norm_strip.
Qed.

Lemma town_answer_is_an_unpadded_row_witness :
  let snap := built log1p_floor california_table in
  initialize_dataset log1p_floor california_table = Ok snap /\
  level_of (resolve snap (given " ca ") (given "x") (given "PASADENA")) = Level.town /\
  exists row st pl,
    In row (latest snap) /\
    resolve snap (given " ca ") (given "x") (given "PASADENA")
      = (score_log_linear row, Level.town,
         TownDetails (Some pl) (population (plan row)) (score_log_linear row)) /\
    stateAbbreviation (plan row) = Some st /\ placeName (plan row) = Some pl /\
    Text.upper st = query_state (given " ca ") /\
    Text.lower pl = query_place (given "PASADENA") /\
    Text.strip st = st /\ Text.strip pl = pl.
Proof.
  assert (H : initialize_dataset log1p_floor california_table
              = Ok (built log1p_floor california_table))
    by (vm_compute; reflexivity).
  assert (L : level_of (resolve (built log1p_floor california_table)
                                (given " ca ") (given "x") (given "PASADENA"))
              = Level.town)
    by (vm_compute; reflexivity).
  split; [exact H|]. split; [exact L|].
  exact (town_answer_is_an_unpadded_row _ _ _ _ _ H L).
Defined.



Lemma resolve_fallback_iff
  (log1p : Z -> Q) (df : list csv_row) (snap : snapshot) (s c p : option string) :
  initialize_dataset log1p df = Ok snap ->
  (level_of (resolve snap s c p) = Level.global_fallback <->
   forall r st, In r (latest snap) -> stateAbbreviation (plan r) = Some st ->
                Text.upper st <> query_state s).
Proof.
  intros Hinit. unfold resolve. rewrite get_best_score_with_meta_cases. split.
  - intros Hlevel r st Hr Hst Hup.
    destruct (first_under place_key_eq_dec _ _); [discriminate|].
    destruct (first_under county_key_eq_dec _ _); [discriminate|].
    destruct (first_under string_dec _ _) as [srow|] eqn:Es; [discriminate|].
    assert (Hex : exists g, In (query_state s, g) (state_index snap)).
    { apply (@snapshot_state_key log1p df snap (query_state s) Hinit).
      exists r, st. auto. }
    destruct Hex as (g & Hg).
    exact (proj1 (first_under_None string_dec _ _) Es g Hg).
  - intros Hno.
    destruct (first_under place_key_eq_dec _ _) as [row|] eqn:Et.
    { exfalso. apply first_under_In in Et.
      rewrite (snapshot_town_index _ _ Hinit) in Et.
      apply build_town_index_In in Et. destruct Et as [Hrow Hkey].
      unfold town_query, town_key_of in Hkey. injection Hkey as Hs _.
      destruct (stateAbbreviation (plan row)) as [st|] eqn:Est; [|discriminate].
      simpl in Hs. injection Hs as Hs. exact (Hno row st Hrow Est (eq_sym Hs)). }
    destruct (first_under county_key_eq_dec _ _) as [crow|] eqn:Ec.
    { exfalso. apply first_under_In in Ec.
      rewrite (snapshot_county_index _ _ Hinit) in Ec.
      apply build_county_index_In in Ec. destruct Ec as [Hg Hkey].
      apply in_map_iff in Hg. destruct Hg as (k & <- & Hk).
      apply group_keys_In in Hk. destruct Hk as (r & Hr & Hkr).
      unfold county_key_of in Hkr.
      destruct (stateAbbreviation (plan r)) as [st|] eqn:Est; [|discriminate].
      destruct (countyName (plan r)); [|discriminate].
      injection Hkr as <-. unfold county_query in Hkey. simpl in Hkey.
      injection Hkey as Hs _. exact (Hno r st Hr Est (eq_sym Hs)). }
    destruct (first_under string_dec _ _) as [srow|] eqn:Es; [|reflexivity].
    exfalso. apply first_under_In in Es.
    destruct (proj1 (@snapshot_state_key log1p df snap (query_state s) Hinit)
                    (ex_intro _ srow Es)) as (r & st & Hr & Hst & Hup).
    exact (Hno r st Hr Hst Hup).
Qed.

(** X5.  On a built snapshot the resolver falls back to the global score
    exactly when no row of [latest] has the state of the query, compared in
    upper case: a state that occurs in the table is always answered at
    level town, county or state. *)
Theorem global_fallback_iff_state_unknown
  (log1p : Z -> Q) (df : list csv_row) (snap : snapshot) (s c p : option string) :
  initialize_dataset log1p df = Ok snap ->
  (level_of (resolve snap s c p) = Level.global_fallback <->
   forall r st, In r (latest snap) -> stateAbbreviation (plan r) = Some st ->
                Text.upper st <> query_state s).
Proof. apply resolve_fallback_iff. Qed.

Lemma global_fallback_iff_state_unknown_witness :
  let snap := built log1p_floor california_table in
  initialize_dataset log1p_floor california_table = Ok snap /\
  (level_of (resolve snap (given "ZZ") (given "X") (given "Y")) = Level.global_fallback <->
   forall r st, In r (latest snap) -> stateAbbreviation (plan r) = Some st ->
                Text.upper st <> query_state (given "ZZ")).
Proof.
  intros snap.
  assert (H : initialize_dataset log1p_floor california_table = Ok snap)
    by (vm_compute; reflexivity).
  split; [exact H|].
  exact (@global_fallback_iff_state_unknown log1p_floor california_table snap _ _ _ H).
Defined.

(* ================================================================== *)
(** * Further properties of the scores *)

Lemma rint_comp (x y : Q) : x == y -> rint x = rint y.
Proof.
  intros E. unfold rint. rewrite (Qfloor_comp _ _ E).
  assert (Ec : (x - inject_Z (Qfloor y) ?= 1 # 2) = (y - inject_Z (Qfloor y) ?= 1 # 2)).
  { apply Qcompare_comp; [now rewrite E | reflexivity]. }
  now rewrite Ec.
Qed.

Lemma round2_comp (x y : Q) : x == y -> round2 x = round2 y.
Proof.
  intros E. unfold round2. apply Qred_complete.
  rewrite (@rint_comp (x * 100) (y * 100)); [reflexivity | now rewrite E].
Qed.

Lemma rint_inject_Z (n : Z) : rint (inject_Z n) = n.
Proof.
  unfold rint. rewrite Qfloor_Z.
  destruct (Qcompare_spec (inject_Z n - inject_Z n) (1 # 2)); [lra | reflexivity | lra].
Qed.




(** Rounding to two decimals a second time changes nothing. *)
Lemma round2_idem (x : Q) : round2 (round2 x) = round2 x.
Proof.
  unfold round2 at 1 3. apply Qred_complete.
  assert (E : round2 x * 100 == inject_Z (rint (x * 100))).
  { unfold round2. rewrite Qred_correct. field. }
  rewrite (@rint_comp _ _ E), rint_inject_Z. reflexivity.
Qed.

Lemma fround2_idem (a : flt) : fround2 (fround2 a) = fround2 a.
Proof. destruct a as [|x]; simpl; [reflexivity | now rewrite round2_idem]. Qed.

Lemma round2_range (a b : Z) (x : Q) :
  inject_Z a <= x * 100 -> x * 100 <= inject_Z b ->
  inject_Z a / 100 <= round2 x <= inject_Z b / 100.
Proof.
  intros Ha Hb. unfold round2. rewrite Qred_correct.
  pose proof (@rint_lower _ _ Ha) as Hlo. pose proof (@rint_upper _ _ Hb) as Hhi.
  rewrite Zle_Qle in Hlo, Hhi.
  set (r := inject_Z (rint (x * 100))) in *.
  set (A := inject_Z a) in *. set (B := inject_Z b) in *.
  assert (E1 : A / 100 * 100 == A) by field.
  assert (E2 : B / 100 * 100 == B) by field.
  split.
  - apply Qle_shift_div_l; lra.
  - apply Qle_shift_div_r; lra.
Qed.

(** ** Least and greatest values of a series *)

Lemma fold_qmin_In (l : list Q) (a : Q) : In (fold_left qmin l a) (a :: l).
Proof.
  revert a. induction l as [|x l IH]; simpl; intros a; [auto|].
  destruct (IH (qmin a x)) as [E|Hin]; [|auto].
  rewrite <- E. unfold qmin. destruct (Qle_bool a x); auto.
Qed.






Section ScoreFacts.

Variable log1p : Z -> Q.

Lemma latest_log_pop (df : list csv_row) (snap : snapshot) (r : plan_record) :
  initialize_dataset log1p df = Ok snap -> In r (latest snap) ->
  log_pop r = log1p (population (plan r)) /\
  In (log_pop r) (log_column log1p (cleaned_rows df)) /\
  score_log_linear r
  = linear_score (series_min (log_column log1p (cleaned_rows df)))
                 (series_max (log_column log1p (cleaned_rows df))) (log_pop r) /\
  score_percentile r
  = percentile_score (log_column log1p (cleaned_rows df)) (log_pop r) /\
  log_min snap = series_min (log_column log1p (cleaned_rows df)) /\
  log_max snap = series_max (log_column log1p (cleaned_rows df)) /\
  (forall y, In y (log_column log1p (cleaned_rows df)) ->
     exists r', In r' (latest snap) /\ log_pop r' = y).
Proof.
  intros Hinit Hr.
  pose proof (@initialize_dataset_latest log1p df snap Hinit) as Hl.
  rewrite initialize_dataset_closed in Hinit. cbv zeta in Hinit.
  injection Hinit as <-. cbn [latest log_min log_max] in *.
  apply scored_rows_In in Hr. destruct Hr as (r0 & Hr0 & ->). simpl.
  split; [reflexivity|]. split.
  { unfold log_column. apply in_map_iff. exists r0. auto. }
  do 4 (split; [reflexivity|]).
  intros y Hy. unfold log_column in Hy. apply in_map_iff in Hy.
  destruct Hy as (r1 & <- & Hr1).
  eexists. split; [apply scored_rows_In; exists r1; split; [exact Hr1 | reflexivity]|].
  reflexivity.
Qed.

End ScoreFacts.






(** ** The percentile rank *)

Lemma filter_disjoint_length (A : Type) (f g : A -> bool) (l : list A) :
  (forall y, f y = true -> g y = false) ->
  (List.length (filter f l) + List.length (filter g l) <= List.length l)%nat.
Proof.
  intros H. induction l as [|y l IH]; simpl; [lia|].
  destruct (f y) eqn:Ef.
  - rewrite (H y Ef). simpl. lia.
  - destruct (g y); simpl; lia.
Qed.

Lemma filter_length_pos (A : Type) (f : A -> bool) (l : list A) (x : A) :
  In x l -> f x = true -> (1 <= List.length (filter f l))%nat.
Proof.
  intros Hin Hf.
  assert (H : In x (filter f l)) by (apply filter_In; auto).
  destruct (filter f l); [destruct H | simpl; lia].
Qed.

Lemma rank_average_pct_bounds (l : list Q) (x : Q) :
  In x l -> 0 < rank_average_pct l x /\ rank_average_pct l x <= 1.
Proof.
  intros Hin. unfold rank_average_pct, count_if.
  set (f := fun y : Q => negb (Qle_bool x y)).
  set (g := fun y : Q => Qeq_bool y x).
  assert (Hd : forall y, f y = true -> g y = false).
  { intros y Hy. unfold f, g in *. destruct (Qeq_bool y x) eqn:E; [|reflexivity].
    apply Qeq_bool_iff in E.
    assert (Hle : Qle_bool x y = true) by (apply Qle_bool_iff; lra).
    rewrite Hle in Hy. discriminate. }
  pose proof (filter_disjoint_length f g l Hd) as Hsum.
  assert (Hsame : (1 <= List.length (filter g l))%nat).
  { apply (filter_length_pos g l x Hin). unfold g. apply Qeq_bool_refl. }
  set (less := Z.of_nat (List.length (filter f l))) in *.
  set (same := Z.of_nat (List.length (filter g l))) in *.
  set (n := Z.of_nat (List.length l)) in *.
  assert (H0 : (0 <= less)%Z) by (subst less; lia).
  assert (H1 : (1 <= same)%Z) by (subst same; lia).
  assert (H2 : (less + same <= n)%Z) by (subst less same n; lia).
  rewrite (Qmake_Qdiv (2 * less + same + 1) 2).
  rewrite !inject_Z_plus, !inject_Z_mult.
  rewrite Zle_Qle in H0, H1, H2. rewrite inject_Z_plus in H2.
  set (L := inject_Z less) in *. set (S := inject_Z same) in *.
  set (N := inject_Z n) in *.
  clearbody L S N. unfold inject_Z in *.
  assert (HN : 0 < N) by lra.
  split.
  - apply Qlt_shift_div_l; [exact HN|]. apply Qlt_shift_div_l; lra.
  - apply Qle_shift_div_r; [exact HN|]. apply Qle_shift_div_r; lra.
Qed.

(** X8.  On a built snapshot the score_percentile of every row of [latest]
    is a number in [0, 100], never NaN. *)
Theorem percentile_within_0_100
  (log1p : Z -> Q) (df : list csv_row) (snap : snapshot) (r : plan_record) :
  initialize_dataset log1p df = Ok snap ->
  In r (latest snap) ->
  flt_in 0 100 (score_percentile r).
Proof.
  intros Hinit Hr.
  destruct (@latest_log_pop log1p df snap r Hinit Hr) as (_ & Hin & _ & Hp & _).
  rewrite Hp. unfold percentile_score. simpl.
  destruct (rank_average_pct_bounds _ _ Hin) as [B0 B1].
  set (v := rank_average_pct (log_column log1p (cleaned_rows df)) (log_pop r)) in *.
  destruct (@round2_range 0 10000 (v * 100)) as [R0 R1].
  - unfold inject_Z. lra.
  - unfold inject_Z. lra.
  - assert (E0 : inject_Z 0 / 100 == 0) by reflexivity.
    assert (E1 : inject_Z 10000 / 100 == 100) by reflexivity.
    rewrite E0 in R0. rewrite E1 in R1. split; assumption.
Qed.

Lemma percentile_within_0_100_witness :
  let snap := built log1p_floor california_table in
  let r := nth 1 (latest snap) (mkPlan (mkRow None None None 0%Z None) 0 NaN NaN) in
  initialize_dataset log1p_floor california_table = Ok snap /\
  In r (latest snap) /\
  flt_in 0 100 (score_percentile r).
Proof.
  intros snap r.
  assert (H : initialize_dataset log1p_floor california_table = Ok snap)
    by (vm_compute; reflexivity).
  assert (Hin : In r (latest snap)) by (vm_compute; auto).
  split; [exact H|]. split; [exact Hin|].
  exact (@percentile_within_0_100 log1p_floor california_table snap r H Hin).
Defined.

(* ================================================================== *)
(** * Aggregation keeps the population *)

Lemma zsum_app (l1 l2 : list Z) : zsum (l1 ++ l2) = (zsum l1 + zsum l2)%Z.
Proof. induction l1 as [|x l1 IH]; simpl; [reflexivity | rewrite IH; lia]. Qed.

Lemma zsum_perm (l1 l2 : list Z) : Permutation l1 l2 -> zsum l1 = zsum l2.
Proof. induction 1; simpl; lia. Qed.


Section GroupSums.

Variable K : Type.
Variable K_eq_dec : forall a b : K, {a = b} + {a <> b}.
Variable key_of : plan_record -> option K.




End GroupSums.




(* ================================================================== *)
(** * [get_zip_coverage_score] *)

Lemma zeros_length (n : nat) : String.length (zeros n) = n.
Proof. induction n as [|n IH]; simpl; [reflexivity | now rewrite IH]. Qed.

Lemma append_length (a b : string) :
  String.length (String.append a b) = (String.length a + String.length b)%nat.
Proof. induction a as [|c a IH]; simpl; [reflexivity | now rewrite IH]. Qed.

Lemma append_empty_r (a : string) : String.append a EmptyString = a.
Proof. induction a as [|c a IH]; simpl; [reflexivity | now rewrite IH]. Qed.

Lemma zfill_facts (width : nat) (s : string) :
  String.length (zfill width s) = Nat.max width (String.length s) /\
  ((width <= String.length s)%nat -> zfill width s = s) /\
  (head_has_sign s = false -> (String.length s < width)%nat ->
   zfill width s = String.append (zeros (width - String.length s)) s) /\
  zfill width (zfill width s) = zfill width s.
Proof.
  assert (Hlen : String.length (zfill width s) = Nat.max width (String.length s)).
  { unfold zfill. destruct (Nat.leb_spec width (String.length s)) as [H|H]; [lia|].
    destruct s as [|c s'].
    - simpl. rewrite zeros_length. lia.
    - destruct (is_sign c); simpl; rewrite append_length, zeros_length; simpl in *; lia. }
  assert (Hid : forall t, (width <= String.length t)%nat -> zfill width t = t).
  { intros t Ht. unfold zfill. apply Nat.leb_le in Ht. now rewrite Ht. }
  split; [exact Hlen|]. split; [apply Hid|]. split.
  - intros Hsign Hlt. unfold zfill.
    destruct (Nat.leb_spec width (String.length s)) as [H|H]; [lia|].
    destruct s as [|c s']; [now rewrite append_empty_r|].
    simpl in Hsign. now rewrite Hsign.
  - apply Hid. rewrite Hlen. lia.
Qed.

Lemma coverage_zip (NOMI : nominatim) (snap : snapshot) (z : string) :
  Coverage.zip (get_zip_coverage_score NOMI snap z) = zfill 5 z.
Proof.
  unfold get_zip_coverage_score.
  destruct (NOMI (zfill 5 z)) as [geo|];
    [destruct (Geo.place_name geo)|];
    destruct (get_best_score_with_meta _ _ _ _ _ _ _ _ _) as [[? ?] ?]; reflexivity.
Qed.

(** X10.  The ZIP code is padded to five characters with zeros on the left
    before anything is looked up: the zip of the answer has the length
    max(5, len), a code of five characters or more is kept as it is, a
    shorter code without sign gets exactly the missing zeros in front, and
    asking with the padded code gives the same answer. *)
Theorem coverage_zip_is_padded (NOMI : nominatim) (snap : snapshot) (z : string) :
  let answer := get_zip_coverage_score NOMI snap z in
  String.length (Coverage.zip answer) = Nat.max 5 (String.length z) /\
  ((5 <= String.length z)%nat -> Coverage.zip answer = z) /\
  (head_has_sign z = false -> (String.length z < 5)%nat ->
   Coverage.zip answer = String.append (zeros (5 - String.length z)) z) /\
  get_zip_coverage_score NOMI snap (Coverage.zip answer) = answer.
Proof.
  intros answer. subst answer. rewrite coverage_zip.
  destruct (zfill_facts 5 z) as (H1 & H2 & H3 & H4).
  split; [exact H1|]. split; [exact H2|]. split; [exact H3|].
  unfold get_zip_coverage_score. now rewrite H4.
Qed.

Lemma upper_empty (st : string) : Text.upper st = EmptyString -> st = EmptyString.
Proof. destruct st; [reflexivity | discriminate]. Qed.

Section CoverageFacts.

Variable log1p : Z -> Q.


(** The answer in the two cases of the lookup. *)
Lemma get_zip_coverage_score_cases (NOMI : nominatim) (snap : snapshot) (z : string) :
  match NOMI (zfill 5 z) with
  | Some (Geo.mk (Some pl) co sc sn) =>
      let place := before_comma (Text.strip pl) in
      let county := Text.lower (_norm co) in
      let state := Text.upper (_norm sc) in
      let a := resolve snap (Some state) (Some county) (Some place) in
      get_zip_coverage_score NOMI snap z
      = Coverage.mk (zfill 5 z) (Some place) (Some county) (Some state)
                    (fround2 (score_of a)) (level_of a) (details_of a)
  | _ =>
      let a := resolve snap (Some EmptyString) (Some EmptyString) (Some EmptyString) in
      get_zip_coverage_score NOMI snap z
      = Coverage.mk (zfill 5 z) None None None (score_of a) (level_of a) (details_of a)
  end.
Proof.
  unfold get_zip_coverage_score, resolve, score_of, level_of, details_of.
  destruct (NOMI (zfill 5 z)) as [[[pl|] co sc sn]|]; cbn [Geo.place_name Geo.county_name Geo.state_code _norm];
    destruct (get_best_score_with_meta _ _ _ _ _ _ _ _ _) as [[? ?] ?]; reflexivity.
Qed.

End CoverageFacts.

(** X11.  On a snapshot built from a table in which no state is the empty
    text, a ZIP code for which the lookup knows no place gets the global
    fallback: the answer carries the padded ZIP code, the rounded fallback
    value and the note, and neither place, county nor state. *)
Theorem coverage_of_unknown_zip
  (log1p : Z -> Q) (df : list csv_row) (snap : snapshot)
  (NOMI : nominatim) (z : string) :
  initialize_dataset log1p df = Ok snap ->
  (forall r, In r (latest snap) -> stateAbbreviation (plan r) <> Some EmptyString) ->
  place_unknown NOMI (zfill 5 z) ->
  get_zip_coverage_score NOMI snap z
  = Coverage.mk (zfill 5 z) None None None
      (fround2 (fallback_value (log_min snap) (log_max snap) (log_median snap)))
      Level.global_fallback (FallbackDetails no_match_note).
Proof.
  intros Hinit Hstate Hunk.
  pose proof (get_zip_coverage_score_cases NOMI snap z) as Hc.
  unfold place_unknown in Hunk.
  assert (Hres : resolve snap (Some EmptyString) (Some EmptyString) (Some EmptyString)
                 = fallback_answer (log_min snap) (log_max snap) (log_median snap)).
  { assert (Hl : level_of (resolve snap (Some EmptyString) (Some EmptyString)
                                   (Some EmptyString)) = Level.global_fallback).
    { apply (@resolve_fallback_iff log1p df snap _ _ _ Hinit).
      intros r st Hr Hst Hup. change (query_state (Some EmptyString)) with EmptyString in Hup.
      apply upper_empty in Hup. subst st. exact (Hstate r Hr Hst). }
    revert Hl. unfold resolve. rewrite get_best_score_with_meta_cases.
    destruct (first_under place_key_eq_dec _ _); [discriminate|].
    destruct (first_under county_key_eq_dec _ _); [discriminate|].
    destruct (first_under string_dec _ _); [discriminate | reflexivity]. }
  destruct (NOMI (zfill 5 z)) as [[[pl|] co sc sn]|]; simpl in Hunk; try discriminate;
    cbv zeta in Hc; rewrite Hc, Hres; reflexivity.
Qed.

Lemma coverage_of_unknown_zip_witness :
  let snap := built log1p_floor california_table in
  initialize_dataset log1p_floor california_table = Ok snap /\
  (forall r, In r (latest snap) -> stateAbbreviation (plan r) <> Some EmptyString) /\
  place_unknown pasadena_lookup (zfill 5 "99") /\
  get_zip_coverage_score pasadena_lookup snap "99"
  = Coverage.mk "00099" None None None
      (fround2 (fallback_value (log_min snap) (log_max snap) (log_median snap)))
      Level.global_fallback (FallbackDetails no_match_note).
Proof.
  intros snap.
  assert (H : initialize_dataset log1p_floor california_table = Ok snap)
    by (vm_compute; reflexivity).
  assert (Hs : forall r, In r (latest snap) ->
                         stateAbbreviation (plan r) <> Some EmptyString).
  { intros r Hr. vm_compute in Hr. destruct Hr as [<-|[<-|[]]]; discriminate. }
  assert (Hu : place_unknown pasadena_lookup (zfill 5 "99")) by reflexivity.
  split; [exact H|]. split; [exact Hs|]. split; [exact Hu|].
  exact (@coverage_of_unknown_zip log1p_floor california_table snap
           pasadena_lookup "99" H Hs Hu).
Defined.



Lemma details_score_resolve (snap : snapshot) (s c p : option string) (x : flt) :
  details_score (details_of (resolve snap s c p)) = Some x ->
  score_of (resolve snap s c p) = x.
Proof.
  unfold resolve. rewrite get_best_score_with_meta_cases.
  destruct (first_under place_key_eq_dec _ _); [now intros [= <-]|].
  destruct (first_under county_key_eq_dec _ _); [now intros [= <-]|].
  destruct (first_under string_dec _ _); [now intros [= <-] | discriminate].
Qed.

(** X13.  For a ZIP code whose place the lookup knows,
    [get_zip_coverage_score] returns the score of its meta dictionary rounded
    to two decimals, and rounding it again changes nothing.  On a built
    snapshot an answer at level town carries the score_log_linear of a row of
    [latest] unchanged, since that score is already rounded. *)
Theorem coverage_score_is_rounded_meta_score
  (log1p : Z -> Q) (df : list csv_row) (snap : snapshot)
  (NOMI : nominatim) (z : string) (geo : Geo.t) (pl : string) :
  initialize_dataset log1p df = Ok snap ->
  NOMI (zfill 5 z) = Some geo -> Geo.place_name geo = Some pl ->
  let a := get_zip_coverage_score NOMI snap z in
  fround2 (Coverage.score a) = Coverage.score a /\
  (forall x, details_score (Coverage.meta a) = Some x ->
             Coverage.score a = fround2 x) /\
  (Coverage.level a = Level.town ->
   exists row,
     In row (latest snap) /\
     Coverage.score a = score_log_linear row /\
     Coverage.meta a
     = TownDetails (placeName (plan row)) (population (plan row))
                   (score_log_linear row)).
Proof.
  intros Hinit Hgeo Hpl a. subst a.
  pose proof (get_zip_coverage_score_cases NOMI snap z) as Hc.
  rewrite Hgeo in Hc. destruct geo as [pn co sc sn]. simpl in Hpl. subst pn.
  cbv zeta in Hc. rewrite Hc. cbn [Coverage.score Coverage.meta Coverage.level].
  set (S := Some (Text.upper (_norm sc))).
  set (C := Some (Text.lower (_norm co))).
  set (P := Some (before_comma (Text.strip pl))).
  split; [apply fround2_idem|]. split.
  - intros x Hx. now rewrite (details_score_resolve _ _ _ _ Hx).
  - intros Hlevel.
    revert Hlevel. unfold resolve, score_of, level_of, details_of.
    rewrite get_best_score_with_meta_cases.
    destruct (first_under place_key_eq_dec _ _) as [row|] eqn:Et.
    2:{ destruct (first_under county_key_eq_dec _ _);
          [discriminate|destruct (first_under string_dec _ _); discriminate]. }
    intros _. apply first_under_In in Et.
    rewrite (snapshot_town_index _ _ Hinit) in Et.
    apply build_town_index_In in Et. destruct Et as [Hrow _].
    exists row. split; [exact Hrow|]. split; [|reflexivity].
    simpl. destruct (@latest_log_pop log1p df snap row Hinit Hrow)
      as (_ & _ & Hs & _).
    rewrite Hs. unfold linear_score. apply fround2_idem.
Qed.

Lemma coverage_score_is_rounded_meta_score_witness :
  let snap := built log1p_floor california_table in
  let a := get_zip_coverage_score pasadena_lookup snap "91101" in
  initialize_dataset log1p_floor california_table = Ok snap /\
  Coverage.level a = Level.town /\
  Coverage.place_name a = Some "Pasadena"%string /\
  exists row,
    In row (latest snap) /\
    Coverage.score a = score_log_linear row /\
    Coverage.meta a
    = TownDetails (placeName (plan row)) (population (plan row))
                  (score_log_linear row).
Proof.
  intros snap a.
  assert (H : initialize_dataset log1p_floor california_table = Ok snap)
    by (vm_compute; reflexivity).
  assert (L : Coverage.level a = Level.town) by (vm_compute; reflexivity).
  split; [exact H|]. split; [exact L|]. split; [vm_compute; reflexivity|].
  destruct (@coverage_score_is_rounded_meta_score log1p_floor california_table snap
              pasadena_lookup "91101" _ "Pasadena, CA" H eq_refl eq_refl)
    as (_ & _ & Ht).
  exact (Ht L).
Defined.

(* ================================================================== *)
(** * Dictionaries *)

Section DictFacts.

Variables K V : Type.
Variable K_eq_dec : forall a b : K, {a = b} + {a <> b}.

Lemma dict_get_set (k k' : K) (v : V) (d : Dict.t K V) :
  Dict.get K_eq_dec k (Dict.set K_eq_dec k' v d) = if K_eq_dec k' k then Some v else Dict.get K_eq_dec k d.
Proof.
  induction d as [|[k0 v0] d IH]; simpl.
  - reflexivity.
  - destruct (K_eq_dec k0 k') as [->|Hne]; simpl.
    + destruct (K_eq_dec k' k); reflexivity.
    + destruct (K_eq_dec k0 k) as [->|Hne'].
      * destruct (K_eq_dec k' k); [congruence | reflexivity].
      * exact IH.
Qed.

Lemma dict_set_In (k k' : K) (v v' : V) (d : Dict.t K V) :
  In (k, v) (Dict.set K_eq_dec k' v' d) -> (k = k' /\ v = v') \/ In (k, v) d.
Proof.
  induction d as [|[k0 v0] d IH]; simpl.
  - intros [[= <- <-]|[]]. auto.
  - destruct (K_eq_dec k0 k') as [->|Hne]; simpl.
    + intros [[= <- <-]|H]; auto.
    + intros [E|H]; [auto|]. destruct (IH H); auto.
Qed.

Lemma dict_get_In (k : K) (v : V) (d : Dict.t K V) :
  Dict.get K_eq_dec k d = Some v -> In (k, v) d.
Proof.
  induction d as [|[k0 v0] d IH]; simpl; [discriminate|].
  destruct (K_eq_dec k0 k) as [->|Hne]; [intros [= ->]; auto | auto].
Qed.

Lemma dict_get_None (k : K) (d : Dict.t K V) :
  ~ In k (Dict.keys d) -> Dict.get K_eq_dec k d = None.
Proof.
  induction d as [|[k0 v0] d IH]; simpl; [reflexivity|]. intros H.
  destruct (K_eq_dec k0 k); [tauto | apply IH; tauto].
Qed.

Lemma dict_get_keys (k : K) (v : V) (d : Dict.t K V) :
  Dict.get K_eq_dec k d = Some v -> In k (Dict.keys d).
Proof. intros H. apply dict_get_In in H. apply (in_map fst) in H. exact H. Qed.

Lemma dict_get_fold_set (k : K) (l : list (K * V)) (d : Dict.t K V) :
  Dict.get K_eq_dec k (fold_left (fun d kv => Dict.set K_eq_dec (fst kv) (snd kv) d) l d)
  = match Dict.last_value K_eq_dec k l with
    | Some v => Some v
    | None => Dict.get K_eq_dec k d
    end.
Proof.
  revert d. induction l as [|[k' v] l IH]; simpl; intros d; [reflexivity|].
  rewrite IH, dict_get_set.
  destruct (Dict.last_value K_eq_dec k l); [reflexivity|].
  now destruct (K_eq_dec k' k).
Qed.

(** A loop that assigns [f s] to each key [s] of a list for which [f] has a
    value. *)
Lemma dict_get_fold_some (f : K -> option V) (k : K) (ks : list K) (d : Dict.t K V) :
  Dict.get K_eq_dec k (fold_left (fun acc s => match f s with
                                 | Some v => Dict.set K_eq_dec s v acc
                                 | None => acc
                                 end) ks d)
  = if in_dec K_eq_dec k ks
    then match f k with Some v => Some v | None => Dict.get K_eq_dec k d end
    else Dict.get K_eq_dec k d.
Proof.
  revert d. induction ks as [|s ks IH]; simpl; intros d; [reflexivity|].
  rewrite IH.
  destruct (K_eq_dec s k) as [->|Hne].
  - destruct (f k) as [v|] eqn:E.
    + rewrite dict_get_set. destruct (K_eq_dec k k); [|congruence].
      now destruct (in_dec K_eq_dec k ks).
    + now destruct (in_dec K_eq_dec k ks).
  - destruct (f s) as [v|]; [rewrite dict_get_set|];
      destruct (in_dec K_eq_dec k ks); try destruct (K_eq_dec s k);
      try congruence; reflexivity.
Qed.

Lemma dict_fold_some_In (f : K -> option V) (k : K) (v : V) (ks : list K)
  (d : Dict.t K V) :
  In (k, v) (fold_left (fun acc s => match f s with
                                     | Some v => Dict.set K_eq_dec s v acc
                                     | None => acc
                                     end) ks d) ->
  In (k, v) d \/ f k = Some v.
Proof.
  revert d. induction ks as [|s ks IH]; simpl; intros d H; [auto|].
  destruct (IH _ H) as [Hin|Hf]; [|auto].
  destruct (f s) as [v'|] eqn:E; [|auto].
  destruct (dict_set_In _ _ _ _ _ Hin) as [[-> ->]|Hd]; auto.
Qed.

End DictFacts.

(* ================================================================== *)
(** * [DebtRevenueAnalyzer] *)

Lemma gov_names_In (df : list gov_row) (st : string) :
  In st (gov_names df) <-> exists r, In r df /\ gov_name r = Some st.
Proof.
  induction df as [|a df IH]; simpl.
  - split; [tauto | intros (r & [] & _)].
  - destruct (gov_name a) as [n|] eqn:E; simpl; rewrite IH; split.
    + intros [->|(r & Hr & Hn)]; [exists a; auto | exists r; auto].
    + intros (r & [<-|Hr] & Hn); [left; congruence | right; exists r; auto].
    + intros (r & Hr & Hn). exists r; auto.
    + intros (r & [<-|Hr] & Hn); [congruence | exists r; auto].
Qed.

Lemma gov_groups_In (df : list gov_row) (st : string) :
  In st (gov_groups df) <-> exists r, In r df /\ gov_name r = Some st.
Proof. unfold gov_groups. rewrite sort_by_In, nodup_In. apply gov_names_In. Qed.

Lemma state_data_get (df : list gov_row) (st : string) :
  Dict.get string_dec st (build_state_data df)
  = if in_dec string_dec st (gov_groups df) then Some (gov_mapping df st) else None.
Proof.
  unfold build_state_data.
  change (fun sd state => Dict.set string_dec state (gov_mapping df state) sd)
    with (fun sd state => match Some (gov_mapping df state) with
                          | Some v => Dict.set string_dec state v sd
                          | None => sd
                          end).
  rewrite (dict_get_fold_some string_dec (fun s => Some (gov_mapping df s))).
  reflexivity.
Qed.

Lemma last_amount_last_value (df : list gov_row) (st label : string) :
  last_amount df st label
  = Dict.last_value string_dec label
      (map (fun r => (gov_label r, gov_amount r)) (filter (gov_in_group st) df)).
Proof.
  induction df as [|r df IH]; simpl; [reflexivity|]. rewrite IH.
  destruct (gov_in_group st r); simpl; [|now destruct (Dict.last_value _ _ _)].
  destruct (Dict.last_value _ _ _); [reflexivity|].
  now destruct (string_dec (gov_label r) label).
Qed.

Lemma last_amount_In (df : list gov_row) (st label : string) (v : flt) :
  last_amount df st label = Some v ->
  exists r, In r df /\ gov_name r = Some st /\ gov_label r = label /\ gov_amount r = v.
Proof.
  induction df as [|r df IH]; simpl; [discriminate|].
  destruct (last_amount df st label) as [x|].
  - intros [= ->]. destruct (IH eq_refl) as (r' & H & ?). exists r'. auto.
  - unfold gov_in_group.
    destruct (gov_name r) as [n|] eqn:En; [|discriminate].
    destruct (string_dec n st) as [->|]; [|discriminate].
    destruct (string_dec (gov_label r) label) as [El|]; [|discriminate].
    simpl. intros [= <-]. exists r. auto.
Qed.

Lemma get_value_last_amount (df : list gov_row) (st label : string) :
  get_value (build_state_data df) st label = last_amount df st label.
Proof.
  unfold get_value, state_info_of. rewrite state_data_get, last_amount_last_value.
  destruct (in_dec string_dec st (gov_groups df)) as [Hin|Hout].
  - unfold gov_mapping, Dict.of_pairs. rewrite dict_get_fold_set.
    now destruct (Dict.last_value _ _ _).
  - assert (E : filter (gov_in_group st) df = []).
    { clear - Hout. rewrite gov_groups_In in Hout.
      induction df as [|r df IH]; simpl; [reflexivity|].
      destruct (gov_in_group st r) eqn:Eg.
      - exfalso. apply Hout. exists r. split; [now left|].
        unfold gov_in_group in Eg. destruct (gov_name r) as [n|]; [|discriminate].
        destruct (string_dec n st); [congruence | discriminate].
      - apply IH. intros (r' & Hr' & Hn). apply Hout. exists r'.
        split; [now right | exact Hn]. }
    rewrite E. reflexivity.
Qed.

(** The ratio of a state, from the last amounts the table lists for it. *)
Lemma ratio_last_amount (df : list gov_row) (st : string) :
  fst (fst (get_debt_to_revenue_ratio (build_state_data df) st debt_key revenue_key))
  = match last_amount df st debt_key, last_amount df st revenue_key with
    | Some d, Some r => if feqb r (Fin 0) then None else Some (fdiv d r)
    | _, _ => None
    end.
Proof.
  rewrite <- !get_value_last_amount. unfold get_debt_to_revenue_ratio, get_value.
  destruct (Dict.get string_dec debt_key _) as [d|];
    [destruct (Dict.get string_dec revenue_key _) as [r|];
       [destruct (feqb r (Fin 0))|]|]; reflexivity.
Qed.

Lemma all_ratios_get (sd : Dict.t string (Dict.t string flt)) (st : string) :
  Dict.get string_dec st (_compute_all_ratios sd)
  = fst (fst (get_debt_to_revenue_ratio sd st debt_key revenue_key)).
Proof.
  unfold _compute_all_ratios.
  rewrite (dict_get_fold_some string_dec
             (fun s => fst (fst (get_debt_to_revenue_ratio sd s debt_key revenue_key)))).
  destruct (in_dec string_dec st (Dict.keys sd)) as [Hin|Hout]; simpl.
  - now destruct (fst (fst _)).
  - unfold get_debt_to_revenue_ratio, state_info_of.
    rewrite (dict_get_None string_dec _ _ Hout). reflexivity.
Qed.

Lemma all_ratios_In (sd : Dict.t string (Dict.t string flt)) (st : string) (v : flt) :
  In (st, v) (_compute_all_ratios sd) ->
  fst (fst (get_debt_to_revenue_ratio sd st debt_key revenue_key)) = Some v.
Proof.
  intros H. unfold _compute_all_ratios in H.
  apply (dict_fold_some_In string_dec
           (fun s => fst (fst (get_debt_to_revenue_ratio sd s debt_key revenue_key))))
    in H.
  destruct H as [[]|H]; exact H.
Qed.

(** ** [min] and [max] on numbers *)

Lemma fold_py_min (qs : list Q) (q : Q) :
  fold_left (fun m y => if flt_ltb y m then y else m) (map Fin qs) (Fin q)
  = Fin (fold_left qmin qs q).
Proof.
  revert q. induction qs as [|y qs IH]; simpl; intros q; [reflexivity|].
  unfold qmin at 2. destruct (Qle_bool q y); simpl; apply IH.
Qed.

Lemma fold_py_max (qs : list Q) (q : Q) :
  fold_left (fun m y => if flt_ltb m y then y else m) (map Fin qs) (Fin q)
  = Fin (fold_left (fun m y => qmax y m) qs q).
Proof.
  revert q. induction qs as [|y qs IH]; simpl; intros q; [reflexivity|].
  unfold qmax at 2. destruct (Qle_bool y q); simpl; apply IH.
Qed.

Lemma fold_qmax_flip (qs : list Q) (q : Q) :
  let m := fold_left (fun m y => qmax y m) qs q in
  In m (q :: qs) /\ q <= m /\ forall y, In y qs -> y <= m.
Proof.
  revert q. induction qs as [|x qs IH]; simpl; intros q.
  - split; [auto|]. split; [lra | tauto].
  - destruct (IH (qmax x q)) as (H1 & H2 & H3).
    pose proof (qmax_ge_l x q). pose proof (qmax_ge_r x q).
    split; [|split].
    + destruct H1 as [E|H1]; [|auto]. rewrite <- E.
      unfold qmax. destruct (Qle_bool x q); auto.
    + lra.
    + intros y [<-|Hy]; [lra | auto].
Qed.

Lemma finite_list (l : list flt) :
  Forall (fun v => exists q, v = Fin q) l -> exists qs, l = map Fin qs.
Proof.
  induction 1 as [|v l (q & ->) _ (qs & ->)]; [now exists [] | now exists (q :: qs)].
Qed.

Lemma py_min_max_finite (l : list flt) :
  l <> [] -> Forall (fun v => exists q, v = Fin q) l ->
  exists mn mx,
    py_min l = Returns (Fin mn) /\ py_max l = Returns (Fin mx) /\
    In (Fin mn) l /\ In (Fin mx) l /\
    forall q, In (Fin q) l -> mn <= q <= mx.
Proof.
  intros Hne Hfin. destruct (finite_list Hfin) as (qs & ->).
  destruct qs as [|q qs]; [exfalso; apply Hne; reflexivity|]. simpl.
  rewrite fold_py_min, fold_py_max.
  exists (fold_left qmin qs q), (fold_left (fun m y => qmax y m) qs q).
  do 2 (split; [reflexivity|]).
  destruct (fold_qmin_le qs q) as [A1 A2].
  destruct (fold_qmax_flip qs q) as (B0 & B1 & B2).
  pose proof (fold_qmin_In qs q) as A0.
  split; [exact (in_map Fin _ _ A0)|]. split; [exact (in_map Fin _ _ B0)|].
  intros y Hy. change (In (Fin y) (map Fin (q :: qs))) in Hy.
  apply in_map_iff in Hy. destruct Hy as (y' & [= ->] & [<-|Hy]); split; auto.
Qed.

Lemma analyzer_ratio (df : list gov_row) (st : string) :
  Dict.get string_dec st (all_ratios (DebtRevenueAnalyzer df)) = debt_ratio df st.
Proof.
  unfold DebtRevenueAnalyzer. cbn [all_ratios].
  rewrite all_ratios_get. apply ratio_last_amount.
Qed.

Lemma analyzer_ratio_In (df : list gov_row) (st : string) (v : flt) :
  In (st, v) (all_ratios (DebtRevenueAnalyzer df)) -> debt_ratio df st = Some v.
Proof.
  unfold DebtRevenueAnalyzer. cbn [all_ratios]. intros H.
  apply all_ratios_In in H. rewrite ratio_last_amount in H. exact H.
Qed.

Lemma debt_ratio_finite (df : list gov_row) (st : string) (v : flt) :
  finite_amounts df -> debt_ratio df st = Some v -> exists q, v = Fin q.
Proof.
  intros Hfin. unfold debt_ratio.
  destruct (last_amount df st debt_key) as [d|] eqn:Ed; [|discriminate].
  destruct (last_amount df st revenue_key) as [r|] eqn:Er; [|discriminate].
  apply last_amount_In in Ed, Er.
  destruct Ed as (rd & Hrd & _ & _ & <-). destruct Er as (rr & Hrr & _ & _ & <-).
  unfold finite_amounts in Hfin. rewrite Forall_forall in Hfin.
  destruct (Hfin rd Hrd) as (qd & ->). destruct (Hfin rr Hrr) as (qr & ->).
  simpl. destruct (Qeq_bool qr 0); [discriminate|]. intros [= <-]. eauto.
Qed.

(** The score of a state with a ratio, on a table of numbers. *)
Lemma relative_score_form (df : list gov_row) (st : string) (q : Q) :
  finite_amounts df -> debt_ratio df st = Some (Fin q) ->
  exists mn mx,
    mn <= q <= mx /\
    (exists s1, debt_ratio df s1 = Some (Fin mn)) /\
    (exists s2, debt_ratio df s2 = Some (Fin mx)) /\
    (forall s' q', debt_ratio df s' = Some (Fin q') -> mn <= q' <= mx) /\
    get_relative_score (all_ratios (DebtRevenueAnalyzer df)) st
    = Returns (Some (if Qeq_bool mx mn then Fin 50
                     else Fin ((q - mn) / (mx - mn) * 100))).
Proof.
  intros Hfin Hq. set (ar := all_ratios (DebtRevenueAnalyzer df)).
  assert (Hget : Dict.get string_dec st ar = Some (Fin q))
    by (unfold ar; now rewrite analyzer_ratio).
  assert (Hin : In (Fin q) (Dict.values ar)).
  { apply dict_get_In in Hget. exact (in_map snd _ _ Hget). }
  assert (Hvals : Forall (fun v => exists x, v = Fin x) (Dict.values ar)).
  { apply Forall_forall. intros v Hv. apply in_map_iff in Hv.
    destruct Hv as ([k v'] & <- & Hkv). simpl.
    apply analyzer_ratio_In in Hkv. exact (@debt_ratio_finite df k v' Hfin Hkv). }
  assert (Hne : Dict.values ar <> []) by (intros E; rewrite E in Hin; destruct Hin).
  destruct (py_min_max_finite Hne Hvals) as (mn & mx & Emn & Emx & Imn & Imx & Hb).
  assert (Hback : forall x, In (Fin x) (Dict.values ar) ->
                            exists s', debt_ratio df s' = Some (Fin x)).
  { intros x Hx. apply in_map_iff in Hx. destruct Hx as ([k v'] & E & Hkv).
    simpl in E. subst v'. exists k. now apply analyzer_ratio_In. }
  exists mn, mx. split; [now apply Hb|]. split; [now apply Hback|].
  split; [now apply Hback|]. split.
  - intros s' q' Hs'. apply Hb.
    rewrite <- analyzer_ratio in Hs'. apply dict_get_In in Hs'.
    exact (in_map snd _ _ Hs').
  - unfold get_relative_score. fold ar. rewrite Hget, Emn, Emx. simpl.
    destruct (Qeq_bool mx mn) eqn:E; [reflexivity|].
    apply Qeq_bool_false_neq in E.
    destruct (Qeq_bool (mx - mn) 0) eqn:E0; [|reflexivity].
    exfalso. apply E. apply Qeq_bool_iff in E0. lra.
Qed.

(** X14.  [get_value] returns the last amount the table lists for the state
    and the category, and nothing when the table lists none: a later row
    replaces an earlier one with the same state and label. *)
Theorem get_value_is_last_listed (df : list gov_row) (st label : string) :
  get_value (state_data (DebtRevenueAnalyzer df)) st label = last_amount df st label /\
  (forall v, get_value (state_data (DebtRevenueAnalyzer df)) st label = Some v ->
     exists r, In r df /\ gov_name r = Some st /\ gov_label r = label /\
               gov_amount r = v) /\
  (forall df' r, df = df' ++ [r] -> gov_name r = Some st -> gov_label r = label ->
     get_value (state_data (DebtRevenueAnalyzer df)) st label = Some (gov_amount r)).
Proof.
  assert (E : get_value (state_data (DebtRevenueAnalyzer df)) st label
              = last_amount df st label) by apply get_value_last_amount.
  split; [exact E|]. split.
  - intros v Hv. rewrite E in Hv. now apply last_amount_In.
  - intros df' r -> Hn Hl. rewrite E. clear E.
    induction df' as [|a df' IH]; simpl.
    + unfold gov_in_group. rewrite Hn.
      destruct (string_dec st st); [|congruence].
      destruct (string_dec (gov_label r) label); [reflexivity | congruence].
    + now rewrite IH.
Qed.

(** X15.  [get_relative_score] never raises: [min] and [max] are only taken
    when the state has a ratio, so over a sequence that is not empty.  It
    returns None exactly for a state without ratio, that is, when the table
    lists no debt or no revenue for it or its revenue is zero. *)
Theorem relative_score_is_defined (df : list gov_row) (st : string) :
  exists o,
    get_relative_score (all_ratios (DebtRevenueAnalyzer df)) st = Returns o /\
    (o = None <-> debt_ratio df st = None) /\
    fst (fst (get_debt_to_revenue_ratio (state_data (DebtRevenueAnalyzer df)) st
                                        debt_key revenue_key))
    = debt_ratio df st.
Proof.
  assert (Er : fst (fst (get_debt_to_revenue_ratio
                           (state_data (DebtRevenueAnalyzer df)) st debt_key revenue_key))
               = debt_ratio df st) by apply ratio_last_amount.
  unfold get_relative_score.
  pose proof (analyzer_ratio df st) as Hget. rewrite Hget.
  destruct (debt_ratio df st) as [r|] eqn:E.
  - rewrite <- E in Hget. rewrite E in Hget. apply dict_get_In in Hget.
    apply (in_map snd) in Hget. unfold Dict.values.
    destruct (map snd (all_ratios (DebtRevenueAnalyzer df))) as [|x l] eqn:El;
      [destruct Hget|].
    simpl. destruct (feqb _ _); eexists; (split; [reflexivity|]);
      (split; [split; discriminate | exact Er]).
  - exists None. split; [reflexivity|]. split; [tauto | exact Er].
Qed.

Lemma relative_score_bounds_lemma (df : list gov_row) (st : string) (x : flt) :
  finite_amounts df ->
  get_relative_score (all_ratios (DebtRevenueAnalyzer df)) st = Returns (Some x) ->
  flt_in 0 100 x.
Proof.
  intros Hfin Hx.
  destruct (debt_ratio df st) as [v|] eqn:Ev.
  2:{ unfold get_relative_score in Hx. rewrite analyzer_ratio, Ev in Hx. discriminate. }
  destruct (@debt_ratio_finite df st v Hfin Ev) as (q & ->).
  destruct (@relative_score_form df st q Hfin Ev) as (mn & mx & Hq & _ & _ & _ & Hs).
  rewrite Hs in Hx. injection Hx as <-.
  destruct (Qeq_bool mx mn) eqn:E; simpl; [lra|].
  apply Qeq_bool_false_neq in E.
  assert (Hpos : 0 < mx - mn).
  { destruct (Qlt_le_dec mn mx) as [Hlt|Hle]; [lra|].
    exfalso. apply E. apply Qle_antisym; lra. }
  assert (H0 : 0 <= (q - mn) / (mx - mn)) by (apply Qle_shift_div_l; lra).
  assert (H1 : (q - mn) / (mx - mn) <= 1) by (apply Qle_shift_div_r; lra).
  lra.
Qed.

(** X16.  On a table whose amounts are numbers, the relative score of a
    state lies in [0, 100]. *)
Theorem relative_score_within_0_100 (df : list gov_row) (st : string) (x : flt) :
  finite_amounts df ->
  get_relative_score (all_ratios (DebtRevenueAnalyzer df)) st = Returns (Some x) ->
  flt_in 0 100 x.
Proof. apply relative_score_bounds_lemma. Qed.

Lemma revenue_table_finite : finite_amounts revenue_table.
Proof. repeat constructor; eexists; reflexivity. Qed.

Lemma relative_score_within_0_100_witness :
  finite_amounts revenue_table /\
  get_relative_score (all_ratios (DebtRevenueAnalyzer revenue_table)) "Ohio"
    = Returns (Some (Fin (6400000000 # 144000000))) /\
  flt_in 0 100 (Fin (6400000000 # 144000000)).
Proof.
  assert (H : get_relative_score (all_ratios (DebtRevenueAnalyzer revenue_table)) "Ohio"
              = Returns (Some (Fin (6400000000 # 144000000))))
    by (vm_compute; reflexivity).
  split; [exact revenue_table_finite|]. split; [exact H|].
  exact (@relative_score_within_0_100 revenue_table _ _ revenue_table_finite H).
Defined.



(* ================================================================== *)
(** * [calculate_rci] *)





Lemma get_relative_score_returns (df : list gov_row) (st : string) :
  exists o, get_relative_score (all_ratios (DebtRevenueAnalyzer df)) st = Returns o.
Proof.
  unfold get_relative_score. rewrite analyzer_ratio.
  destruct (debt_ratio df st) as [r|] eqn:E; [|eauto].
  rewrite <- analyzer_ratio in E. apply dict_get_In in E.
  apply (in_map snd) in E. unfold Dict.values.
  destruct (map snd (all_ratios (DebtRevenueAnalyzer df))) as [|x l]; [destruct E|].
  simpl. destruct (feqb _ _); eauto.
Qed.

Section CalculateRciFacts.

Variable _nom : nominatim.
Variable NOMI : nominatim.
Variable snap : snapshot.
Variable gov_df : list gov_row.
Variable get_county_metric : string -> string -> option flt.
Variable get_eal_score : string -> string -> eal_answer.

Let rci_of (z : string) : raises Rci.t :=
  calculate_rci _nom NOMI snap (DebtRevenueAnalyzer gov_df)
                get_county_metric get_eal_score z.

(** The report in closed form. *)
Lemma calculate_rci_report (z st co : string) :
  get_state_from_zip _nom z = Some (st, co) ->
  exists debt,
    get_relative_score (all_ratios (DebtRevenueAnalyzer gov_df)) st = Returns debt /\
    let haz := Coverage.score (get_zip_coverage_score NOMI snap z) in
    let bridge := get_county_metric co st in
    let eal := match get_eal_score co st with
               | EalScore x => Some x
               | EalMessage _ => None
               end in
    rci_of z
    = Returns (Rci.Report z st co (Some haz) debt bridge eal
                 (Some (fround2 (np_mean (haz :: not_none [debt; bridge; eal]))))).
Proof.
  intros Hloc. destruct (get_relative_score_returns gov_df st) as (debt & Hd).
  exists debt. split; [exact Hd|]. cbv zeta.
  unfold rci_of, calculate_rci. rewrite Hloc, Hd. reflexivity.
Qed.

End CalculateRciFacts.

(** X18.  [calculate_rci] never raises.  It answers with the error
    dictionary exactly when the lookup has no state name or no county name
    for the ZIP code; otherwise the report names the state and the county
    stripped of surrounding whitespace, its hazard score is always there,
    and so its rci is never None: it is the mean of the scores that are
    there, rounded to two decimals. *)
Theorem calculate_rci_always_reports
  (_nom NOMI : nominatim) (snap : snapshot) (gov_df : list gov_row)
  (get_county_metric : string -> string -> option flt)
  (get_eal_score : string -> string -> eal_answer) (z : string) :
  let answer := calculate_rci _nom NOMI snap (DebtRevenueAnalyzer gov_df)
                              get_county_metric get_eal_score z in
  match _nom z with
  | Some (Geo.mk _ (Some co) _ (Some st)) =>
      exists haz debt bridge eal,
        answer = Returns (Rci.Report z (Text.strip st) (Text.strip co)
                            (Some haz) debt bridge eal
                            (Some (fround2 (np_mean (haz :: not_none [debt; bridge; eal])))))
        /\ haz = Coverage.score (get_zip_coverage_score NOMI snap z)
  | _ => answer = Returns (Rci.Invalid z invalid_zip_note)
  end.
Proof.
  intros answer. subst answer.
  destruct (_nom z) as [[pn [co|] sc [st|]]|] eqn:E;
    try (unfold calculate_rci, get_state_from_zip; rewrite E; reflexivity).
  assert (Hloc : get_state_from_zip _nom z = Some (Text.strip st, Text.strip co))
    by (unfold get_state_from_zip; rewrite E; reflexivity).
  destruct (calculate_rci_report _nom NOMI snap gov_df get_county_metric
              get_eal_score z Hloc) as (debt & _ & Hr).
  cbv zeta in Hr. rewrite Hr. eexists. eexists. eexists. eexists.
  split; reflexivity.
Qed.



(** X20.  When the state has no debt ratio, the bridge data no metric and
    the expected-loss table no score, the rci of the report is the hazard
    score rounded to two decimals. *)
Theorem rci_of_hazard_alone
  (_nom NOMI : nominatim) (snap : snapshot) (gov_df : list gov_row)
  (get_county_metric : string -> string -> option flt)
  (get_eal_score : string -> string -> eal_answer) (z st co m : string) :
  get_state_from_zip _nom z = Some (st, co) ->
  debt_ratio gov_df st = None ->
  get_county_metric co st = None ->
  get_eal_score co st = EalMessage m ->
  calculate_rci _nom NOMI snap (DebtRevenueAnalyzer gov_df)
                get_county_metric get_eal_score z
  = Returns (Rci.Report z st co
               (Some (Coverage.score (get_zip_coverage_score NOMI snap z)))
               None None None
               (Some (fround2 (Coverage.score (get_zip_coverage_score NOMI snap z))))).
Proof.
  intros Hloc Hd Hb He.
  unfold calculate_rci. rewrite Hloc.
  unfold get_relative_score. rewrite analyzer_ratio, Hd, Hb, He. simpl.
  destruct (Coverage.score _) as [|h]; simpl; [reflexivity|].
  assert (E : round2 ((h + 0) / inject_Z 1) = round2 h)
    by (apply round2_comp; unfold inject_Z; field).
  rewrite E. reflexivity.
Qed.

Lemma rci_of_hazard_alone_witness :
  let snap := built log1p_floor california_table in
  get_state_from_zip dallas_lookup "75001" = Some ("Texas", "Dallas")%string /\
  debt_ratio [] "Texas" = None /\
  no_bridge "Dallas" "Texas" = None /\
  no_eal "Dallas" "Texas" = EalMessage "No match found." /\
  calculate_rci dallas_lookup pasadena_lookup snap (DebtRevenueAnalyzer [])
                no_bridge no_eal "75001"
  = Returns (Rci.Report "75001" "Texas" "Dallas"
               (Some (Coverage.score (get_zip_coverage_score pasadena_lookup snap "75001")))
               None None None
               (Some (fround2 (Coverage.score
                                 (get_zip_coverage_score pasadena_lookup snap "75001"))))).
Proof.
  intros snap.
  do 4 (split; [reflexivity|]).
  apply (@rci_of_hazard_alone dallas_lookup pasadena_lookup snap [] no_bridge no_eal
           "75001" "Texas" "Dallas" "No match found."); reflexivity.
Defined.

(* ------------------------------------------------------------------ *)
(** ** The keys of a dictionary *)

Section DictKeys.

Variables K V : Type.
Variable K_eq_dec : forall a b : K, {a = b} + {a <> b}.

Lemma dict_keys_set_In (k k' : K) (v : V) (d : Dict.t K V) :
  In k (Dict.keys (Dict.set K_eq_dec k' v d)) <-> k = k' \/ In k (Dict.keys d).
Proof.
  induction d as [|[k0 v0] d IH]; simpl.
  - split; intros [H|H]; auto; contradiction.
  - destruct (K_eq_dec k0 k') as [->|Hne]; simpl.
    + intuition congruence.
    + unfold Dict.keys in IH. rewrite IH. intuition.
Qed.

Lemma dict_keys_set_NoDup (k' : K) (v : V) (d : Dict.t K V) :
  NoDup (Dict.keys d) -> NoDup (Dict.keys (Dict.set K_eq_dec k' v d)).
Proof.
  induction d as [|[k0 v0] d IH]; simpl; intros H.
  - constructor; [intros [] | constructor].
  - inversion H as [|? ? Hnin Hd]; subst.
    destruct (K_eq_dec k0 k') as [->|Hne]; simpl.
    + constructor; assumption.
    + constructor; [|now apply IH].
      change (~ In k0 (Dict.keys (Dict.set K_eq_dec k' v d))).
      rewrite dict_keys_set_In. intros [E|E]; [congruence | exact (Hnin E)].
Qed.

Lemma dict_keys_fold_set (l : list (K * V)) (d : Dict.t K V) :
  NoDup (Dict.keys d) ->
  NoDup (Dict.keys (fold_left (fun d kv => Dict.set K_eq_dec (fst kv) (snd kv) d) l d)) /\
  (forall k, In k (Dict.keys (fold_left (fun d kv => Dict.set K_eq_dec (fst kv) (snd kv) d) l d))
             <-> In k (map fst l) \/ In k (Dict.keys d)).
Proof.
  revert d. induction l as [|[k0 v0] l IH]; simpl; intros d Hd.
  - split; [exact Hd | intros k; tauto].
  - destruct (IH (Dict.set K_eq_dec k0 v0 d) (@dict_keys_set_NoDup k0 v0 d Hd)) as [N I].
    split; [exact N|]. intros k. rewrite I, dict_keys_set_In.
    split; intros H; intuition.
Qed.

Lemma dict_keys_get (k : K) (d : Dict.t K V) :
  In k (Dict.keys d) <-> Dict.get K_eq_dec k d <> None.
Proof.
  split.
  - induction d as [|[k0 v0] d IH]; simpl; [intros []|].
    intros [E|E]; destruct (K_eq_dec k0 k); try discriminate; auto; congruence.
  - intros H. destruct (in_dec K_eq_dec k (Dict.keys d)) as [Hin|Hnin]; [exact Hin|].
    exfalso. apply H. now apply dict_get_None.
Qed.

End DictKeys.

Lemma gov_in_group_true (st : string) (r : gov_row) :
  gov_in_group st r = true <-> gov_name r = Some st.
Proof.
  unfold gov_in_group. destruct (gov_name r) as [n|]; [|split; discriminate].
  destruct (string_dec n st) as [->|Hne]; split; auto; try discriminate.
  intros [= E]. contradiction.
Qed.

(** X21.  [list_categories] lists every label the table has for the state
    exactly once, and nothing else; it is empty for a state the table does
    not name.  The categories listed are exactly those for which
    [get_value] returns an amount. *)
Theorem list_categories_lists_each_label_once (df : list gov_row) (st : string) :
  let cats := list_categories (state_data (DebtRevenueAnalyzer df)) st in
  NoDup cats /\
  (forall l, In l cats <->
             exists r, In r df /\ gov_name r = Some st /\ gov_label r = l) /\
  (forall l, In l cats <->
             get_value (state_data (DebtRevenueAnalyzer df)) st l <> None) /\
  ((forall r, In r df -> gov_name r <> Some st) -> cats = []).
Proof.
  cbv zeta. unfold list_categories, get_value, state_info_of. cbn [state_data DebtRevenueAnalyzer].
  rewrite state_data_get.
  assert (Hk : forall l, In l (Dict.keys (gov_mapping df st)) <->
                         exists r, In r df /\ gov_name r = Some st /\ gov_label r = l).
  { intros l. unfold gov_mapping, Dict.of_pairs.
    destruct (@dict_keys_fold_set string flt string_dec
                (map (fun r => (gov_label r, gov_amount r)) (filter (gov_in_group st) df))
                [] (NoDup_nil _)) as [_ I].
    rewrite I, map_map. simpl. rewrite in_map_iff. split.
    - intros [(r & El & Hr)|[]]. apply filter_In in Hr. destruct Hr as [Hr Hg].
      exists r. rewrite <- gov_in_group_true. auto.
    - intros (r & Hr & Hn & El). left. exists r. split; [exact El|].
      apply filter_In. split; [exact Hr | now apply gov_in_group_true]. }
  destruct (in_dec string_dec st (gov_groups df)) as [Hin|Hnin].
  - split; [|split; [exact Hk | split]].
    + unfold gov_mapping, Dict.of_pairs.
      apply (@dict_keys_fold_set string flt string_dec _ [] (NoDup_nil _)).
    + intros l. apply dict_keys_get.
    + intros Hno. apply gov_groups_In in Hin. destruct Hin as (r & Hr & Hn).
      exfalso. exact (Hno r Hr Hn).
  - split; [constructor | split; [|split]].
    + intros l. split; [intros [] | intros (r & Hr & Hn & _)].
      apply Hnin. apply gov_groups_In. exists r. auto.
    + intros l. simpl. split; [intros [] | intros H; now apply H].
    + reflexivity.
Qed.

(** X22.  [normalize_state_name] reads a name up to letter case and
    surrounding whitespace: the result is in upper case without padding,
    normalising twice changes nothing, and two spellings of a name that
    differ in case or padding are normalised to the same text. *)
Theorem normalize_state_name_is_canonical (name : string) :
  normalize_state_name (normalize_state_name name) = normalize_state_name name /\
  normalize_state_name (Text.upper name) = normalize_state_name name /\
  normalize_state_name (Text.lower name) = normalize_state_name name /\
  normalize_state_name (Text.strip name) = normalize_state_name name /\
  Text.upper (normalize_state_name name) = normalize_state_name name /\
  head_is_space (normalize_state_name name) = false /\
  last_is_space (normalize_state_name name) = false.
Proof.
  unfold normalize_state_name.
  assert (Hs : Text.strip (Text.upper (Text.strip name)) = Text.upper (Text.strip name))
    by (rewrite strip_upper, strip_strip; reflexivity).
  repeat split.
  - rewrite Hs. apply upper_upper.
  - rewrite strip_upper. apply upper_upper.
  - rewrite strip_lower. apply upper_lower.
  - now rewrite strip_strip.
  - apply upper_upper.
  - rewrite <- Hs. unfold Text.strip at 1.
    apply head_is_space_rstrip, head_is_space_lstrip.
  - rewrite <- Hs. unfold Text.strip at 1. apply last_is_space_rstrip.
Qed.
